(** * CRM-Frontend: the client-side state containers and form validation

    A shallow embedding of
    - [src/context/CRMContext.tsx]   (customers / leads cache, dashboard stats),
    - the authentication context      (login, register, logout, storage
      persistence, [apiFetch]),
    - [CustomerModal.tsx] and the lead modal (form validation and submit),
    - the login, customers and customer pages (validation, search, pages,
      filters).

    Conventions.
    - A JavaScript [string] is a [string] of code units below 256.
    - A JavaScript [number] is a [float] (IEEE 754 binary64), through the
      operations of the class [Number] below; what is proved of sums of
      values is proved of [float].
    - A union type of string literals is an enumeration; what it is once
      the types are erased is in [Erased].
    - Array lengths and the per-status counters are integers below 2^32, on
      which [number] arithmetic is exact: they are [nat].
    - React state is a record; a setter is a function on that record and a
      handler is the composition of its setter calls, in program order.
      What a handler reads from its closure (the values of the render that
      created it) is an explicit argument, its [view].
    - [new Date().toISOString()], the API response and [JSON.stringify] are
      inputs of the operation that uses them. *)

From Stdlib Require Import ZArith Strings.Ascii Numbers.Cyclic.Int63.Uint63.
From Stdlib Require Import Floats.PrimFloat Floats.SpecFloat Floats.FloatOps Floats.FloatAxioms.
From stdpp Require Import base strings list gmap fin_maps pretty.


(* ===================================================================== *)
(** * Part I. The model                                                    *)
(* ===================================================================== *)

(** ** JavaScript numbers *)

Class Number (num : Type) := {
  (** an integer literal *)
  num_of_Z : Z → num;
  (** [a + b] *)
  num_add : num → num → num;
  (** the order of [<], [>=]; [None] when the operands are unordered (NaN) *)
  num_compare : num → num → option comparison;
  (** [ToBoolean]: false for [0], [-0] and [NaN] *)
  num_truthy : num → bool;
}.

Section number_ops.
Context `{Number num}.

(** [a < b] *)
Definition num_lt (a b : num) : bool :=
  match num_compare a b with Some Lt => true | _ => false end.

(** [a >= b] *)
Definition num_ge (a b : num) : bool :=
  match num_compare a b with Some Eq | Some Gt => true | _ => false end.

(** [x || 0] *)
Definition or_zero (x : num) : num :=
  if num_truthy x then x else num_of_Z 0.
End number_ops.

(** IEEE 754 binary64. *)
Definition float_of_Z (z : Z) : float :=
  match z with
  | Z0 => 0%float
  | Zpos _ => PrimFloat.of_uint63 (Uint63.of_Z z)
  | Zneg _ => (- PrimFloat.of_uint63 (Uint63.of_Z (- z)))%float
  end.

Definition float_compare (a b : float) : option comparison :=
  match PrimFloat.compare a b with
  | FEq => Some Eq
  | FLt => Some Lt
  | FGt => Some Gt
  | FNotComparable => None
  end.

Definition float_truthy (x : float) : bool :=
  negb (PrimFloat.eqb x 0%float || PrimFloat.is_nan x).

Definition NaN : float := PrimFloat.nan.

#[export] Instance float_number : Number float := {|
  num_of_Z := float_of_Z;
  num_add := PrimFloat.add;
  num_compare := float_compare;
  num_truthy := float_truthy;
|}.

(** ** JavaScript strings *)

(** [WhiteSpace] and [LineTerminator] code units below 256: TAB, LF, VT, FF,
    CR, SP and NBSP. They are what [trim] strips and what [\s] matches. *)
Definition isWhiteSpace (c : ascii) : bool :=
  let n := N_of_ascii c in
  ((9 <=? n) && (n <=? 13) || (n =? 32) || (n =? 160))%N.

(** [s.trimStart()] *)
Fixpoint trimStart (s : string) : string :=
  match s with
  | EmptyString => EmptyString
  | String c s' => if isWhiteSpace c then trimStart s' else s
  end.

(** [s.trimEnd()] *)
Fixpoint trimEnd (s : string) : string :=
  match s with
  | EmptyString => EmptyString
  | String c s' =>
      match trimEnd s' with
      | EmptyString => if isWhiteSpace c then EmptyString else String c EmptyString
      | t => String c t
      end
  end.

(** [s.trim()] *)
Definition trim (s : string) : string := trimEnd (trimStart s).

(** [ToBoolean] of a string: the empty string is the only falsy one. *)
Definition str_truthy (s : string) : bool := negb (bool_decide (s = "")).

(** [String(n)] of a non-negative integer: its decimal digits. *)
Definition String_of_nat (n : nat) : string := pretty n.

(** [s.toLowerCase()] on a string of code units below 256: the letters
    [A]-[Z] and the capital letters of Latin-1 (0xC0-0xDE but the sign 0xD7)
    move up by 32. On such a string the conversion is the map of its
    characters: the rules of Unicode that look at the neighbours of a
    character or change the length (the final sigma, U+0130) are about
    characters from U+0100 on, of which the strings of this model have
    none. *)
Definition toLowerCase_char (c : ascii) : ascii :=
  let n := N_of_ascii c in
  if ((65 <=? n) && (n <=? 90) || (192 <=? n) && (n <=? 222) && negb (n =? 215))%N
  then ascii_of_N (n + 32)
  else c.

Fixpoint toLowerCase (s : string) : string :=
  match s with
  | EmptyString => EmptyString
  | String c s' => String (toLowerCase_char c) (toLowerCase s')
  end.

(** [s.startsWith(search)] *)
Fixpoint startsWith (s search : string) : bool :=
  match search, s with
  | EmptyString, _ => true
  | String c search', String d s' => bool_decide (c = d) && startsWith s' search'
  | String _ _, EmptyString => false
  end.

(** [s.includes(search)]: [search] starts at some index of [s]. *)
Fixpoint includes (s search : string) : bool :=
  startsWith s search ||
  match s with
  | String _ s' => includes s' search
  | EmptyString => false
  end.

(** [s.length] *)
Definition str_length (s : string) : nat := String.length s.

(** ** Arrays *)

(** [array.slice(start, end)]: a negative index counts from the end, and
    both are clamped to the array. *)
Definition slice_index (len : nat) (i : Z) : nat :=
  if (i <? 0)%Z then Z.to_nat (Z.max (Z.of_nat len + i) 0)
  else Nat.min (Z.to_nat i) len.

Definition slice {A : Type} (start end_ : Z) (l : list A) : list A :=
  let k := slice_index (length l) start in
  let final := slice_index (length l) end_ in
  take (final - k) (drop k l).

(** [array.join(separator)] on strings *)
Fixpoint join (separator : string) (l : list string) : string :=
  match l with
  | [] => ""
  | [s] => s
  | s :: l => s +:+ separator +:+ join separator l
  end.

(** ** Regular expressions

    The fragment the repository uses: a sequence of items, each a
    one-character matcher, possibly under [+]. *)
Module RegExp.

Inductive atom :=
  | Lit (c : ascii)   (** the character itself, as [@] or [\.] *)
  | NonSpace.         (** [\S] *)

Inductive item :=
  | Once (a : atom)      (** [a]  *)
  | Plus (a : atom).     (** [a+] *)

Definition pattern := list item.

Definition atom_matches (a : atom) (c : ascii) : bool :=
  match a with
  | Lit c' => bool_decide (c = c')
  | NonSpace => negb (isWhiteSpace c)
  end.

(** After the first character of [a+]: take one more character (greedy), or
    give up and continue with the rest of the pattern, [k]. *)
Fixpoint more (a : atom) (k : string → bool) (s : string) : bool :=
  match s with
  | String c s' => (atom_matches a c && more a k s') || k s
  | EmptyString => k s
  end.

(** Does [p] match at the start of [s]? A backtracking matcher. *)
Fixpoint match_here (p : pattern) (s : string) {struct p} : bool :=
  match p with
  | [] => true
  | Once a :: p' =>
      match s with
      | String c s' => atom_matches a c && match_here p' s'
      | EmptyString => false
      end
  | Plus a :: p' =>
      match s with
      | String c s' => atom_matches a c && more a (match_here p') s'
      | EmptyString => false
      end
  end.

(** [re.test(s)] for a pattern without anchors: try every start index. *)
Fixpoint test (p : pattern) (s : string) : bool :=
  match_here p s ||
  match s with
  | String _ s' => test p s'
  | EmptyString => false
  end.

End RegExp.

(** ** Toasts ([hooks/use-toast]) *)

Record Toast := {
  toast_title : string;
  toast_description : string;
  toast_variant : option string;
}.

(** ** The authentication context *)

Module User.

Inductive Role := Admin | User.

Record t := mk {
  _id : string;
  name : string;
  email : string;
  role : Role;
  createdAt : string;
}.

End User.

Module AuthContext.

(** What [apiFetch] gives back: the parsed body, or the [Error] it throws. *)
Inductive Fetch (A : Type) :=
  | Resolved (body : A)
  | Rejected (message : string).
Arguments Resolved {A}.
Arguments Rejected {A}.

(** The body of [POST /auth/login]: [{ token, user: { id, name, email, role } }]. *)
Record ApiUser := {
  api_id : string;
  api_name : string;
  api_email : string;
  api_role : User.Role;
}.

Record LoginBody := {
  body_token : string;
  body_user : ApiUser;
}.

(** The provider's state cells [user], [token] and [loading], the two Web
    Storage areas, and the toasts emitted so far. *)
Record Auth := mk {
  user : option User.t;
  token : option string;
  loading : bool;
  localStorage : gmap string string;
  sessionStorage : gmap string string;
  toasts : list Toast;
}.

Definition setUser (u : option User.t) (s : Auth) : Auth :=
  mk u (token s) (loading s) (localStorage s) (sessionStorage s) (toasts s).
Definition setToken (t : option string) (s : Auth) : Auth :=
  mk (user s) t (loading s) (localStorage s) (sessionStorage s) (toasts s).
Definition setLoading (b : bool) (s : Auth) : Auth :=
  mk (user s) (token s) b (localStorage s) (sessionStorage s) (toasts s).
Definition onLocalStorage (f : gmap string string → gmap string string) (s : Auth) : Auth :=
  mk (user s) (token s) (loading s) (f (localStorage s)) (sessionStorage s) (toasts s).
Definition onSessionStorage (f : gmap string string → gmap string string) (s : Auth) : Auth :=
  mk (user s) (token s) (loading s) (localStorage s) (f (sessionStorage s)) (toasts s).
Definition toast (t : Toast) (s : Auth) : Auth :=
  mk (user s) (token s) (loading s) (localStorage s) (sessionStorage s) (toasts s ++ [t]).

(** [storage.setItem(key, value)] and [storage.removeItem(key)] *)
Definition setItem (key value : string) (st : gmap string string) : gmap string string :=
  <[key := value]> st.
Definition removeItem (key : string) (st : gmap string string) : gmap string string :=
  delete key st.

(** [(remember ? localStorage : sessionStorage).setItem(key, value)] *)
Definition persist (remember : bool) (key value : string) (s : Auth) : Auth :=
  if remember then onLocalStorage (setItem key value) s
  else onSessionStorage (setItem key value) s.

Section with_json.
(** [JSON.stringify] on a [User]. *)
Variable JSON_stringify : User.t → string.

(** [login(email, password, rememberMe = false)]. [response] is what
    [apiFetch('/auth/login', ...)] gives and [now] is
    [new Date().toISOString()]. The result says whether the promise is
    fulfilled ([inr]) or rejected with the rethrown error ([inl]).

    A body that [apiFetch] returns is taken to be of the shape that the
    code reads, [{ token, user }], and the storage to take what is written:
    a body without [user], or a storage that is full, makes a statement
    after the request throw, which is not modelled. *)
Definition login (email password : string) (rememberMe : option bool)
    (response : Fetch LoginBody) (now : string) (s : Auth) : Auth * (string + unit) :=
  let rememberMe := default false rememberMe in
  let s := setLoading true s in
  match response with
  | Resolved data =>
      let userData :=
        User.mk (api_id (body_user data)) (api_name (body_user data))
                (api_email (body_user data)) (api_role (body_user data)) now in
      let s := setUser (Some userData) s in
      let s := setToken (Some (body_token data)) s in
      let s := persist rememberMe "crm_token" (body_token data) s in
      let s := persist rememberMe "crm_user" (JSON_stringify userData) s in
      let s := toast {| toast_title := "Welcome back!";
                        toast_description := "Logged in as " +:+ User.name userData;
                        toast_variant := None |} s in
      (setLoading false s, inr ())
  | Rejected message =>
      let s := toast {| toast_title := "Login failed";
                        toast_description := message;
                        toast_variant := Some "destructive" |} s in
      (setLoading false s, inl message)
  end.

End with_json.

(** [logout()] *)
Definition logout (s : Auth) : Auth :=
  let s := setUser None s in
  let s := setToken None s in
  let s := onLocalStorage (removeItem "crm_token") s in
  let s := onLocalStorage (removeItem "crm_user") s in
  let s := onSessionStorage (removeItem "crm_token") s in
  let s := onSessionStorage (removeItem "crm_user") s in
  toast {| toast_title := "Logged out";
           toast_description := "You have been successfully logged out.";
           toast_variant := None |} s.

(** The state of a provider that has just been mounted over the given
    storage areas: [useState] gives [null], [null] and [true]. *)
Definition mounted (local session : gmap string string) : Auth :=
  mk None None true local session [].

(** [storage.getItem(key)]: [None] is [null]. *)
Definition getItem (key : string) (st : gmap string string) : option string :=
  st !! key.

(** [a || b] on [string | null]: [a] when it is a non-empty string. *)
Definition or_else (a b : option string) : option string :=
  match a with
  | Some x => if str_truthy x then a else b
  | None => b
  end.

(** [ToBoolean] of a [string | null]. *)
Definition opt_truthy (a : option string) : bool :=
  match a with
  | Some x => str_truthy x
  | None => false
  end.

(** The token [apiFetch] and [readPersistedAuth] read:
    [localStorage.getItem('crm_token') || sessionStorage.getItem('crm_token')]. *)
Definition storedToken (local session : gmap string string) : option string :=
  or_else (getItem "crm_token" local) (getItem "crm_token" session).

Section with_parse.
(** [JSON.parse]; [None] when it throws a [SyntaxError]. What it gives is
    taken for a [User], as the cast [as User] does. *)
Variable JSON_parse : string → option User.t.

(** [readPersistedAuth()]; [None] when [JSON.parse] throws. *)
Definition readPersistedAuth (local session : gmap string string)
    : option (option string * option User.t) :=
  let token := storedToken local session in
  let userStr := or_else (getItem "crm_user" local) (getItem "crm_user" session) in
  if opt_truthy userStr
  then match JSON_parse (default "" userStr) with
       | Some user => Some (token, Some user)
       | None => None
       end
  else Some (token, None).

(** The effect that runs once after the provider is mounted; [None] when
    it throws, in which case [setLoading(false)] is never reached. *)
Definition restore (s : Auth) : option Auth :=
  match readPersistedAuth (localStorage s) (sessionStorage s) with
  | Some (t, u) =>
      let s :=
        match u with
        | Some u' =>
            if opt_truthy t
            then let s := setToken t s in setUser (Some u') s
            else s
        | None => s
        end in
      Some (setLoading false s)
  | None => None
  end.

End with_parse.

(** The headers of the request: the content type, then the headers of
    [options], then the stored token; a later one replaces an earlier one
    of the same name. *)
Definition requestHeaders (optionsHeaders : gmap string string)
    (local session : gmap string string) : gmap string string :=
  let token := storedToken local session in
  let headers : gmap string string := {["Content-Type" := "application/json"]} in
  let headers := optionsHeaders ∪ headers in
  if opt_truthy token
  then <["Authorization" := "Bearer " +:+ default "" token]> headers
  else headers.

(** *** [apiFetch] *)

(** A JSON value, as [res.json()] parses it; the members of an object are
    in the order of the text. *)
#[local] Unset Elimination Schemes.
Inductive Json :=
  | JNull
  | JBool (b : bool)
  | JNumber (n : float)
  | JString (s : string)
  | JArray (items : list Json)
  | JObject (members : list (string * Json)).
#[local] Set Elimination Schemes.

(** The member of an object under [name]; of members of one name the last
    one counts. *)
Fixpoint get (name : string) (members : list (string * Json)) : option Json :=
  match members with
  | [] => None
  | (key, v) :: members =>
      match get name members with
      | Some v' => Some v'
      | None => if bool_decide (key = name) then Some v else None
      end
  end.

(** [body?.error]: [None] is [undefined], which is what [null], a
    primitive value, an array and an object without that member give. *)
Definition error_of (body : Json) : option Json :=
  match body with
  | JObject members => get "error" members
  | _ => None
  end.

(** [ToBoolean] *)
Definition truthy (v : Json) : bool :=
  match v with
  | JNull => false
  | JBool b => b
  | JNumber n => float_truthy n
  | JString s => str_truthy s
  | JArray _ | JObject _ => true
  end.

(** What [apiFetch] throws: the [Error] it makes, or the [TypeError] or
    [SyntaxError] of the runtime, whose messages are the engine's. *)
Inductive Thrown :=
  | Error (message : string)
  | TypeError
  | SyntaxError.

(** What a call of [apiFetch] comes to. *)
Inductive Outcome :=
  | Returns (body : Json)
  | Throws (error : Thrown).

(** The response [fetch] resolves to: [res.ok], [res.status] and what
    [res.json()] gives, [None] when the body is not JSON and it rejects
    with a [SyntaxError]. *)
Record Response := {
  res_ok : bool;
  res_status : nat;
  res_json : option Json;
}.

Section with_number_toString.
(** [Number.prototype.toString] *)
Variable Number_toString : float → string.

(** [ToString], which [new Error(message)] applies to its argument;
    [None] when it throws a [TypeError]. An array is joined with [","],
    with nothing for a [null] in it; an object is ["[object Object]"]
    unless a member of its own hides [toString], which leaves nothing to
    call. *)
Fixpoint ToString (v : Json) : option string :=
  match v with
  | JNull => Some "null"
  | JBool b => Some (if b then "true" else "false")
  | JNumber n => Some (Number_toString n)
  | JString s => Some s
  | JArray items =>
      let elements :=
        (fix elements (items : list Json) : option (list string) :=
           match items with
           | [] => Some []
           | item :: items =>
               match (match item with JNull => Some "" | _ => ToString item end),
                     elements items with
               | Some s, Some l => Some (s :: l)
               | _, _ => None
               end
           end) items in
      join "," <$> elements
  | JObject members =>
      match get "toString" members with
      | Some _ => None
      | None => Some "[object Object]"
      end
  end.

(** What [apiFetch] comes to for a response. *)
Definition apiFetch (res : Response) : Outcome :=
  if negb (res_ok res)
  then
    let message := JString ("Request failed: " +:+ String_of_nat (res_status res)) in
    let message :=
      match res_json res with
      | Some body =>
          match error_of body with
          | Some error => if truthy error then error else message
          | None => message
          end
      | None => message
      end in
    match ToString message with
    | Some message => Throws (Error message)
    | None => Throws TypeError
    end
  else
    match res_json res with
    | Some body => Returns body
    | None => Throws SyntaxError
    end.

End with_number_toString.

Section with_json_register.
Variable JSON_stringify : User.t → string.

(** [register(name, email, password)]. [registration] is what
    [apiFetch('/auth/register', ...)] gives and [response] what the
    [apiFetch('/auth/login', ...)] after it gives, if it is reached. As for
    [login], nothing after a request that returned is taken to throw. *)
Definition register (name email password : string)
    (registration : Fetch unit) (response : Fetch LoginBody) (now : string)
    (s : Auth) : Auth * (string + unit) :=
  let s := setLoading true s in
  let failed message s :=
    let s := toast {| toast_title := "Registration failed";
                      toast_description := message;
                      toast_variant := Some "destructive" |} s in
    (setLoading false s, inl message) in
  match registration with
  | Resolved _ =>
      match response with
      | Resolved data =>
          let userData :=
            User.mk (api_id (body_user data)) (api_name (body_user data))
                    (api_email (body_user data)) (api_role (body_user data)) now in
          let s := setUser (Some userData) s in
          let s := setToken (Some (body_token data)) s in
          let s := onLocalStorage (setItem "crm_token" (body_token data)) s in
          let s := onLocalStorage (setItem "crm_user" (JSON_stringify userData)) s in
          let s := toast {| toast_title := "Account created!";
                            toast_description := "Welcome " +:+ name +:+ "!";
                            toast_variant := None |} s in
          (setLoading false s, inr ())
      | Rejected message => failed message s
      end
  | Rejected message => failed message s
  end.

End with_json_register.

End AuthContext.

(** ** The CRM context ([src/context/CRMContext.tsx]) *)

Module Customer.

Record t := mk {
  _id : string;
  name : string;
  email : string;
  phone : option string;
  company : option string;
  ownerId : string;
  createdAt : string;
}.

(** [Omit<Customer, '_id' | 'ownerId' | 'createdAt'>] *)
Record data := mk_data {
  d_name : string;
  d_email : string;
  d_phone : option string;
  d_company : option string;
}.

(** [Partial<Customer>]: [None] is an absent key. *)
Record partial := mk_partial {
  p_id : option string;
  p_name : option string;
  p_email : option string;
  p_phone : option string;
  p_company : option string;
  p_ownerId : option string;
  p_createdAt : option string;
}.

(** [{ ...customer, ...customerData }] *)
Definition spread (customer : t) (customerData : partial) : t :=
  mk (default (_id customer) (p_id customerData))
     (default (name customer) (p_name customerData))
     (default (email customer) (p_email customerData))
     (match p_phone customerData with Some x => Some x | None => phone customer end)
     (match p_company customerData with Some x => Some x | None => company customer end)
     (default (ownerId customer) (p_ownerId customerData))
     (default (createdAt customer) (p_createdAt customerData)).

End Customer.

Module Lead.

(** ['New' | 'Contacted' | 'Converted' | 'Lost'] *)
Inductive Status := New | Contacted | Converted | Lost.

(** The string a status is at run time, as used for a key of a [Record]. *)
Definition key (st : Status) : string :=
  match st with
  | New => "New"
  | Contacted => "Contacted"
  | Converted => "Converted"
  | Lost => "Lost"
  end.

Record t (num : Type) := mk {
  _id : string;
  customerId : string;
  title : string;
  description : option string;
  status : Status;
  value : num;
  createdAt : string;
}.
Arguments mk {num}.
Arguments _id {num}.
Arguments customerId {num}.
Arguments title {num}.
Arguments description {num}.
Arguments status {num}.
Arguments value {num}.
Arguments createdAt {num}.

(** [Omit<Lead, '_id' | 'createdAt'>] *)
Record data (num : Type) := mk_data {
  d_customerId : string;
  d_title : string;
  d_description : option string;
  d_status : Status;
  d_value : num;
}.
Arguments mk_data {num}.
Arguments d_customerId {num}.
Arguments d_title {num}.
Arguments d_description {num}.
Arguments d_status {num}.
Arguments d_value {num}.

(** [Partial<Lead>]: [None] is an absent key. *)
Record partial (num : Type) := mk_partial {
  p_id : option string;
  p_customerId : option string;
  p_title : option string;
  p_description : option string;
  p_status : option Status;
  p_value : option num;
  p_createdAt : option string;
}.
Arguments mk_partial {num}.
Arguments p_id {num}.
Arguments p_customerId {num}.
Arguments p_title {num}.
Arguments p_description {num}.
Arguments p_status {num}.
Arguments p_value {num}.
Arguments p_createdAt {num}.

(** [{ ...lead, ...leadData }] *)
Definition spread {num} (lead : t num) (leadData : partial num) : t num :=
  mk (default (_id lead) (p_id leadData))
     (default (customerId lead) (p_customerId leadData))
     (default (title lead) (p_title leadData))
     (match p_description leadData with Some x => Some x | None => description lead end)
     (default (status lead) (p_status leadData))
     (default (value lead) (p_value leadData))
     (default (createdAt lead) (p_createdAt leadData)).

End Lead.

Module CRMContext.

(** The provider's state cells [customers], [leads] and [loading], and the
    toasts emitted so far. *)
Record CRM (num : Type) := mk {
  customers : list Customer.t;
  leads : list (Lead.t num);
  loading : bool;
  toasts : list Toast;
}.
Arguments mk {num}.
Arguments customers {num}.
Arguments leads {num}.
Arguments loading {num}.
Arguments toasts {num}.

(** [getDashboardStats()]'s result. *)
Record DashboardStats (num : Type) := mk_stats {
  totalCustomers : nat;
  totalLeads : nat;
  totalValue : num;
  leadsByStatus : gmap string nat;
  valueByStatus : gmap string num;
}.
Arguments mk_stats {num}.
Arguments totalCustomers {num}.
Arguments totalLeads {num}.
Arguments totalValue {num}.
Arguments leadsByStatus {num}.
Arguments valueByStatus {num}.

Section with_number.
Context `{Number num}.

Definition mockCustomers : list Customer.t := [
  Customer.mk "1" "Acme Corp" "contact@acme.com" (Some "+1-555-0123")
              (Some "Acme Corp") "1" "2024-01-15T10:30:00Z";
  Customer.mk "2" "TechStart Inc" "hello@techstart.com" (Some "+1-555-0456")
              (Some "TechStart Inc") "1" "2024-01-20T14:20:00Z";
  Customer.mk "3" "Global Solutions" "info@globalsolutions.com" (Some "+1-555-0789")
              (Some "Global Solutions Ltd") "1" "2024-02-05T09:15:00Z"
].

Definition mockLeads : list (Lead.t num) := [
  Lead.mk "1" "1" "Enterprise Software License"
          (Some "Annual software license for 100 users")
          Lead.Contacted (num_of_Z 50000) "2024-01-16T11:00:00Z";
  Lead.mk "2" "1" "Consulting Services"
          (Some "Implementation consulting for Q2")
          Lead.New (num_of_Z 25000) "2024-01-18T16:30:00Z";
  Lead.mk "3" "2" "Cloud Migration"
          (Some "Complete cloud infrastructure migration")
          Lead.Converted (num_of_Z 75000) "2024-01-21T13:45:00Z";
  Lead.mk "4" "3" "Security Audit"
          (Some "Comprehensive security assessment")
          Lead.Lost (num_of_Z 15000) "2024-02-06T10:20:00Z"
].

(** The state cells as [useState] initialises them. *)
Definition initial : CRM num := mk [] [] false [].

(** The state once the effect on [user] has run: the mock data for a
    logged-in user, nothing otherwise. *)
Definition loaded (user : option User.t) : CRM num :=
  match user with
  | Some _ => mk mockCustomers mockLeads false []
  | None => initial
  end.

(** The setters. [setCustomers] and [setLeads] are always called with an
    updater function of the previous value. *)
Definition setCustomers (f : list Customer.t → list Customer.t) (s : CRM num) : CRM num :=
  mk (f (customers s)) (leads s) (loading s) (toasts s).
Definition setLeads (f : list (Lead.t num) → list (Lead.t num)) (s : CRM num) : CRM num :=
  mk (customers s) (f (leads s)) (loading s) (toasts s).
Definition setLoading (b : bool) (s : CRM num) : CRM num :=
  mk (customers s) (leads s) b (toasts s).
Definition toast (title description : string) (s : CRM num) : CRM num :=
  mk (customers s) (leads s) (loading s)
     (toasts s ++ [{| toast_title := title; toast_description := description;
                      toast_variant := None |}]).

(** [await new Promise(resolve => setTimeout(resolve, 500))]: it always
    resolves and touches no state. Nothing in a [try] block below can throw,
    so the [catch] blocks never run and [finally] is the last step. *)
Definition sleep (s : CRM num) : CRM num := s.

(** A handler is created by a render, whose state it sees as [view], and
    acts on the state current when its setters run. *)
Definition addCustomer (user : option User.t) (view : CRM num)
    (customerData : Customer.data) (now : string) (s : CRM num) : CRM num :=
  match user with
  | None => s
  | Some u =>
      let s := setLoading true s in
      let s := sleep s in
      let newCustomer :=
        Customer.mk (String_of_nat (length (customers view) + 1))
                    (Customer.d_name customerData) (Customer.d_email customerData)
                    (Customer.d_phone customerData) (Customer.d_company customerData)
                    (User._id u) now in
      let s := setCustomers (λ prev, prev ++ [newCustomer]) s in
      let s := toast "Customer added"
                     (Customer.name newCustomer +:+ " has been added successfully.") s in
      setLoading false s
  end.

Definition updateCustomer (id : string) (customerData : Customer.partial)
    (s : CRM num) : CRM num :=
  let s := setLoading true s in
  let s := sleep s in
  let s := setCustomers (λ prev,
             (λ customer, if bool_decide (Customer._id customer = id)
                          then Customer.spread customer customerData
                          else customer) <$> prev) s in
  let s := toast "Customer updated"
                 "Customer information has been updated successfully." s in
  setLoading false s.

Definition deleteCustomer (id : string) (s : CRM num) : CRM num :=
  let s := setLoading true s in
  let s := sleep s in
  let s := setCustomers (λ prev, filter (λ customer, Customer._id customer ≠ id) prev) s in
  let s := setLeads (λ prev, filter (λ lead, Lead.customerId lead ≠ id) prev) s in
  let s := toast "Customer deleted"
                 "Customer and all associated leads have been deleted." s in
  setLoading false s.

Definition getCustomer (view : CRM num) (id : string) : option Customer.t :=
  List.find (λ customer, bool_decide (Customer._id customer = id)) (customers view).

Definition addLead (view : CRM num) (leadData : Lead.data num) (now : string)
    (s : CRM num) : CRM num :=
  let s := setLoading true s in
  let s := sleep s in
  let newLead :=
    Lead.mk (String_of_nat (length (leads view) + 1))
            (Lead.d_customerId leadData) (Lead.d_title leadData)
            (Lead.d_description leadData) (Lead.d_status leadData)
            (Lead.d_value leadData) now in
  let s := setLeads (λ prev, prev ++ [newLead]) s in
  let s := toast "Lead added" (Lead.title newLead +:+ " has been added successfully.") s in
  setLoading false s.

Definition updateLead (id : string) (leadData : Lead.partial num) (s : CRM num) : CRM num :=
  let s := setLoading true s in
  let s := sleep s in
  let s := setLeads (λ prev,
             (λ lead, if bool_decide (Lead._id lead = id)
                      then Lead.spread lead leadData
                      else lead) <$> prev) s in
  let s := toast "Lead updated" "Lead has been updated successfully." s in
  setLoading false s.

Definition deleteLead (id : string) (s : CRM num) : CRM num :=
  let s := setLoading true s in
  let s := sleep s in
  let s := setLeads (λ prev, filter (λ lead, Lead._id lead ≠ id) prev) s in
  let s := toast "Lead deleted" "Lead has been deleted successfully." s in
  setLoading false s.

Definition getCustomerLeads (view : CRM num) (customerId : string) : list (Lead.t num) :=
  filter (λ lead, Lead.customerId lead = customerId) (leads view).

(** [acc[key] || 0] on a [Record<string, number>]: a missing key reads as
    [undefined], which is falsy. *)
Definition count_or_zero (acc : gmap string nat) (key : string) : nat :=
  default 0 (acc !! key).
Definition value_or_zero (acc : gmap string num) (key : string) : num :=
  match acc !! key with
  | Some x => or_zero x
  | None => num_of_Z 0
  end.

(** The reducers of [leadsByStatus] and [valueByStatus]:
    [acc[lead.status] = (acc[lead.status] || 0) + 1; return acc] and
    [acc[lead.status] = (acc[lead.status] || 0) + lead.value; return acc]. *)
Definition count_step (acc : gmap string nat) (lead : Lead.t num) : gmap string nat :=
  <[Lead.key (Lead.status lead) :=
      count_or_zero acc (Lead.key (Lead.status lead)) + 1]> acc.
Definition value_step (acc : gmap string num) (lead : Lead.t num) : gmap string num :=
  <[Lead.key (Lead.status lead) :=
      num_add (value_or_zero acc (Lead.key (Lead.status lead))) (Lead.value lead)]> acc.

Definition getDashboardStats (view : CRM num) : DashboardStats num :=
  let totalCustomers := length (customers view) in
  let totalLeads := length (leads view) in
  let totalValue :=
    fold_left (λ sum lead, num_add sum (Lead.value lead)) (leads view) (num_of_Z 0) in
  let leadsByStatus := fold_left count_step (leads view) ∅ in
  let valueByStatus := fold_left value_step (leads view) ∅ in
  mk_stats totalCustomers totalLeads totalValue leadsByStatus valueByStatus.

(** *** Sequences of operations

    Each operation is called from the latest render and has completed
    before the next one is called, as when a user works through the pages. *)
Inductive Op :=
  | AddCustomer (customerData : Customer.data) (now : string)
  | UpdateCustomer (id : string) (customerData : Customer.partial)
  | DeleteCustomer (id : string)
  | AddLead (leadData : Lead.data num) (now : string)
  | UpdateLead (id : string) (leadData : Lead.partial num)
  | DeleteLead (id : string).

Definition exec (user : option User.t) (s : CRM num) (op : Op) : CRM num :=
  match op with
  | AddCustomer customerData now => addCustomer user s customerData now s
  | UpdateCustomer id customerData => updateCustomer id customerData s
  | DeleteCustomer id => deleteCustomer id s
  | AddLead leadData now => addLead s leadData now s
  | UpdateLead id leadData => updateLead id leadData s
  | DeleteLead id => deleteLead id s
  end.

Definition run (user : option User.t) (ops : list Op) (s : CRM num) : CRM num :=
  fold_left (exec user) ops s.

End with_number.

Arguments Op : clear implicits.

End CRMContext.

(** ** The leads at run time

    The union type of [status] is there for the compiler, which checks it
    where the operations are called, and is erased from what runs: the
    operations store the string they are given. This is the state of the
    context and its operations on leads once more, with [status] a
    [string], to tell what the operations do from what the types of their
    callers promise. [erase] takes the leads above to these. *)

Module Erased.

Record Lead (num : Type) := mk_lead {
  _id : string;
  customerId : string;
  title : string;
  description : option string;
  status : string;
  value : num;
  createdAt : string;
}.
Arguments mk_lead {num}.
Arguments _id {num}.
Arguments customerId {num}.
Arguments title {num}.
Arguments description {num}.
Arguments status {num}.
Arguments value {num}.
Arguments createdAt {num}.

(** The argument of [addLead]. *)
Record data (num : Type) := mk_data {
  d_customerId : string;
  d_title : string;
  d_description : option string;
  d_status : string;
  d_value : num;
}.
Arguments mk_data {num}.
Arguments d_customerId {num}.
Arguments d_title {num}.
Arguments d_description {num}.
Arguments d_status {num}.
Arguments d_value {num}.

(** The second argument of [updateLead]: [None] is an absent key. *)
Record partial (num : Type) := mk_partial {
  p_id : option string;
  p_customerId : option string;
  p_title : option string;
  p_description : option string;
  p_status : option string;
  p_value : option num;
  p_createdAt : option string;
}.
Arguments mk_partial {num}.
Arguments p_id {num}.
Arguments p_customerId {num}.
Arguments p_title {num}.
Arguments p_description {num}.
Arguments p_status {num}.
Arguments p_value {num}.
Arguments p_createdAt {num}.

(** [{ ...lead, ...leadData }] *)
Definition spread {num} (lead : Lead num) (leadData : partial num) : Lead num :=
  mk_lead (default (_id lead) (p_id leadData))
          (default (customerId lead) (p_customerId leadData))
          (default (title lead) (p_title leadData))
          (match p_description leadData with Some x => Some x | None => description lead end)
          (default (status lead) (p_status leadData))
          (default (value lead) (p_value leadData))
          (default (createdAt lead) (p_createdAt leadData)).

Record CRM (num : Type) := mk {
  customers : list Customer.t;
  leads : list (Lead num);
  loading : bool;
  toasts : list Toast;
}.
Arguments mk {num}.
Arguments customers {num}.
Arguments leads {num}.
Arguments loading {num}.
Arguments toasts {num}.

Section with_number.
Context `{Number num}.

Definition setCustomers (f : list Customer.t → list Customer.t) (s : CRM num) : CRM num :=
  mk (f (customers s)) (leads s) (loading s) (toasts s).
Definition setLeads (f : list (Lead num) → list (Lead num)) (s : CRM num) : CRM num :=
  mk (customers s) (f (leads s)) (loading s) (toasts s).
Definition setLoading (b : bool) (s : CRM num) : CRM num :=
  mk (customers s) (leads s) b (toasts s).
Definition toast (title description : string) (s : CRM num) : CRM num :=
  mk (customers s) (leads s) (loading s)
     (toasts s ++ [{| toast_title := title; toast_description := description;
                      toast_variant := None |}]).

(** [await new Promise(resolve => setTimeout(resolve, 500))] *)
Definition sleep (s : CRM num) : CRM num := s.

Definition mockLeads : list (Lead num) := [
  mk_lead "1" "1" "Enterprise Software License"
          (Some "Annual software license for 100 users")
          "Contacted" (num_of_Z 50000) "2024-01-16T11:00:00Z";
  mk_lead "2" "1" "Consulting Services"
          (Some "Implementation consulting for Q2")
          "New" (num_of_Z 25000) "2024-01-18T16:30:00Z";
  mk_lead "3" "2" "Cloud Migration"
          (Some "Complete cloud infrastructure migration")
          "Converted" (num_of_Z 75000) "2024-01-21T13:45:00Z";
  mk_lead "4" "3" "Security Audit"
          (Some "Comprehensive security assessment")
          "Lost" (num_of_Z 15000) "2024-02-06T10:20:00Z"
].

(** The state once the effect on [user] has run: the mock data for a
    logged-in user, nothing otherwise. *)
Definition loaded (user : option User.t) : CRM num :=
  match user with
  | Some _ => mk CRMContext.mockCustomers mockLeads false []
  | None => mk [] [] false []
  end.

Definition addLead (view : CRM num) (leadData : data num) (now : string)
    (s : CRM num) : CRM num :=
  let s := setLoading true s in
  let s := sleep s in
  let newLead :=
    mk_lead (String_of_nat (length (leads view) + 1))
            (d_customerId leadData) (d_title leadData)
            (d_description leadData) (d_status leadData)
            (d_value leadData) now in
  let s := setLeads (λ prev, prev ++ [newLead]) s in
  let s := toast "Lead added" (title newLead +:+ " has been added successfully.") s in
  setLoading false s.

Definition updateLead (id : string) (leadData : partial num) (s : CRM num) : CRM num :=
  let s := setLoading true s in
  let s := sleep s in
  let s := setLeads (λ prev,
             (λ lead, if bool_decide (_id lead = id)
                      then spread lead leadData
                      else lead) <$> prev) s in
  let s := toast "Lead updated" "Lead has been updated successfully." s in
  setLoading false s.

Definition deleteLead (id : string) (s : CRM num) : CRM num :=
  let s := setLoading true s in
  let s := sleep s in
  let s := setLeads (λ prev, filter (λ lead, _id lead ≠ id) prev) s in
  let s := toast "Lead deleted" "Lead has been deleted successfully." s in
  setLoading false s.

Definition deleteCustomer (id : string) (s : CRM num) : CRM num :=
  let s := setLoading true s in
  let s := sleep s in
  let s := setCustomers (λ prev, filter (λ customer, Customer._id customer ≠ id) prev) s in
  let s := setLeads (λ prev, filter (λ lead, customerId lead ≠ id) prev) s in
  let s := toast "Customer deleted"
                 "Customer and all associated leads have been deleted." s in
  setLoading false s.

(** Sequences of these operations, each called from the latest render
    and completed before the next. *)
Inductive Op :=
  | AddLead (leadData : data num) (now : string)
  | UpdateLead (id : string) (leadData : partial num)
  | DeleteLead (id : string)
  | DeleteCustomer (id : string).

Definition exec (s : CRM num) (op : Op) : CRM num :=
  match op with
  | AddLead leadData now => addLead s leadData now s
  | UpdateLead id leadData => updateLead id leadData s
  | DeleteLead id => deleteLead id s
  | DeleteCustomer id => deleteCustomer id s
  end.

Definition run (ops : list Op) (s : CRM num) : CRM num :=
  fold_left exec ops s.





End with_number.

Arguments Op : clear implicits.

End Erased.

(** ** The customer form ([src/components/modals/CustomerModal.tsx]) *)

Module CustomerModal.

Record FormData := {
  name : string;
  email : string;
  phone : string;
  company : string;
}.

(** [/\S+@\S+\.\S+/] *)
Definition emailRegExp : RegExp.pattern :=
  [RegExp.Plus RegExp.NonSpace; RegExp.Once (RegExp.Lit "@");
   RegExp.Plus RegExp.NonSpace; RegExp.Once (RegExp.Lit ".");
   RegExp.Plus RegExp.NonSpace]%char.

(** [newErrors] as [validateForm] builds it and passes it to [setErrors]. *)
Definition newErrors (formData : FormData) : gmap string string :=
  let newErrors : gmap string string := ∅ in
  let newErrors :=
    if negb (str_truthy (trim (name formData)))
    then <["name" := "Name is required"]> newErrors
    else newErrors in
  let newErrors :=
    if negb (str_truthy (trim (email formData)))
    then <["email" := "Email is required"]> newErrors
    else if negb (RegExp.test emailRegExp (email formData))
    then <["email" := "Email is invalid"]> newErrors
    else newErrors in
  newErrors.

(** What [validateForm()] returns: [Object.keys(newErrors).length === 0]. *)
Definition validateForm (formData : FormData) : bool :=
  bool_decide (length (map_to_list (newErrors formData)).*1 = 0).

(** The calls [handleSubmit] makes on the CRM context. *)
Inductive Call :=
  | updateCustomer (id : string) (customerData : Customer.partial)
  | addCustomer (customerData : Customer.data).

(** [formData] where a [Partial<Customer>] is expected, and where the
    argument of [addCustomer] is. *)
Definition as_partial (formData : FormData) : Customer.partial :=
  Customer.mk_partial None (Some (name formData)) (Some (email formData))
                      (Some (phone formData)) (Some (company formData)) None None.
Definition as_data (formData : FormData) : Customer.data :=
  Customer.mk_data (name formData) (email formData)
                   (Some (phone formData)) (Some (company formData)).

(** [isEditing = !!customerId], for [customerId?: string | null] *)
Definition isEditing (customerId : option string) : bool :=
  match customerId with
  | Some id => str_truthy id
  | None => false
  end.

(** What a submit does: the errors it sets, the calls it makes on the CRM
    context, in order, and whether it calls [onClose]. *)
Record Submitted := {
  errors : gmap string string;
  calls : list Call;
  closed : bool;
}.

Definition handleSubmit (customerId : option string) (formData : FormData) : Submitted :=
  if negb (validateForm formData)
  then {| errors := newErrors formData; calls := []; closed := false |}
  else
    match customerId with
    | Some id =>
        if isEditing customerId && str_truthy id
        then {| errors := newErrors formData;
                calls := [updateCustomer id (as_partial formData)]; closed := true |}
        else {| errors := newErrors formData;
                calls := [addCustomer (as_data formData)]; closed := true |}
    | None =>
        {| errors := newErrors formData;
           calls := [addCustomer (as_data formData)]; closed := true |}
    end.

(** The form as the effect on [isOpen] and [customer] fills it when the
    dialog is open: from the customer that is edited, or blank.
    [customer.phone || ''] is the phone, or [''] when there is none. *)
Definition load (customer : option Customer.t) : FormData :=
  match customer with
  | Some customer =>
      {| name := Customer.name customer;
         email := Customer.email customer;
         phone := default "" (Customer.phone customer);
         company := default "" (Customer.company customer) |}
  | None => {| name := ""; email := ""; phone := ""; company := "" |}
  end.

(** [customers.find(c => c._id === customerId)] when [isEditing], else
    [null]. *)
Definition editedCustomer (customers : list Customer.t) (customerId : option string)
    : option Customer.t :=
  match customerId with
  | Some id =>
      if isEditing customerId
      then List.find (λ c, bool_decide (Customer._id c = id)) customers
      else None
  | None => None
  end.

End CustomerModal.

(** ** The lead form *)

Module LeadModal.

Definition leadStatuses : list Lead.Status :=
  [Lead.New; Lead.Contacted; Lead.Converted; Lead.Lost].

Record FormData (num : Type) := mk {
  title : string;
  description : string;
  status : Lead.Status;
  value : num;
}.
Arguments mk {num}.
Arguments title {num}.
Arguments description {num}.
Arguments status {num}.
Arguments value {num}.

Section with_number.
Context `{Number num}.

(** The form as [useState] initialises it and as opening the dialog for a
    new lead resets it. *)
Definition blank : FormData num := mk "" "" Lead.New (num_of_Z 0).

(** [handleInputChange('value', parseFloat(e.target.value) || 0)], where
    [parsed] is what [parseFloat] gives. *)
Definition changeValue (parsed : num) (formData : FormData num) : FormData num :=
  mk (title formData) (description formData) (status formData) (or_zero parsed).

(** [newErrors] as [validateForm] builds it and passes it to [setErrors]. *)
Definition newErrors (formData : FormData num) : gmap string string :=
  let newErrors : gmap string string := ∅ in
  let newErrors :=
    if negb (str_truthy (trim (title formData)))
    then <["title" := "Title is required"]> newErrors
    else newErrors in
  let newErrors :=
    if negb (str_truthy (Lead.key (status formData)))
    then <["status" := "Status is required"]> newErrors
    else newErrors in
  let newErrors :=
    if num_lt (value formData) (num_of_Z 0)
    then <["value" := "Value must be positive"]> newErrors
    else newErrors in
  newErrors.

(** What [validateForm()] returns: [Object.keys(newErrors).length === 0]. *)
Definition validateForm (formData : FormData num) : bool :=
  bool_decide (length (map_to_list (newErrors formData)).*1 = 0).

(** The calls [handleSubmit] makes on the CRM context. *)
Inductive Call :=
  | updateLead (id : string) (leadData : Lead.partial num)
  | addLead (leadData : Lead.data num).

Definition as_partial (formData : FormData num) : Lead.partial num :=
  Lead.mk_partial None None (Some (title formData)) (Some (description formData))
                  (Some (status formData)) (Some (value formData)) None.

(** [{ ...formData, customerId }] *)
Definition as_data (formData : FormData num) (customerId : string) : Lead.data num :=
  Lead.mk_data customerId (title formData) (Some (description formData))
               (status formData) (value formData).

Record Submitted := {
  errors : gmap string string;
  calls : list Call;
  closed : bool;
}.

Definition handleSubmit (customerId : string) (leadId : option string)
    (formData : FormData num) : Submitted :=
  if negb (validateForm formData)
  then {| errors := newErrors formData; calls := []; closed := false |}
  else
    match leadId with
    | Some id =>
        if str_truthy id
        then {| errors := newErrors formData;
                calls := [updateLead id (as_partial formData)]; closed := true |}
        else {| errors := newErrors formData;
                calls := [addLead (as_data formData customerId)]; closed := true |}
    | None =>
        {| errors := newErrors formData;
           calls := [addLead (as_data formData customerId)]; closed := true |}
    end.

(** The form as the effect on [isOpen] and [lead] fills it when the dialog
    is open. *)
Definition load (lead : option (Lead.t num)) : FormData num :=
  match lead with
  | Some lead =>
      mk (Lead.title lead) (default "" (Lead.description lead))
         (Lead.status lead) (Lead.value lead)
  | None => blank
  end.

(** [leads.find(l => l._id === leadId)] when [isEditing], else [null]. *)
Definition editedLead (leads : list (Lead.t num)) (leadId : option string)
    : option (Lead.t num) :=
  match leadId with
  | Some id =>
      if str_truthy id
      then List.find (λ l, bool_decide (Lead._id l = id)) leads
      else None
  | None => None
  end.

End with_number.

End LeadModal.

(** ** The forms at work on the CRM context *)

Module Forms.
Section with_number.
Context `{Number num}.

(** The operation of the context that a call of a form is. [now] is the
    time that [addCustomer] and [addLead] read. *)
Definition customerOp (now : string) (call : CustomerModal.Call) : CRMContext.Op num :=
  match call with
  | CustomerModal.updateCustomer id customerData => CRMContext.UpdateCustomer id customerData
  | CustomerModal.addCustomer customerData => CRMContext.AddCustomer customerData now
  end.

Definition leadOp (now : string) (call : LeadModal.Call) : CRMContext.Op num :=
  match call with
  | LeadModal.updateLead id leadData => CRMContext.UpdateLead id leadData
  | LeadModal.addLead leadData => CRMContext.AddLead leadData now
  end.

(** A submit of the customer form, and of the lead form, on the context. *)
Definition submitCustomer (user : option User.t) (now : string)
    (customerId : option string) (formData : CustomerModal.FormData)
    (s : CRMContext.CRM num) : CRMContext.CRM num :=
  CRMContext.run user
    (customerOp now <$> CustomerModal.calls (CustomerModal.handleSubmit customerId formData)) s.

Definition submitLead (user : option User.t) (now : string)
    (customerId : string) (leadId : option string) (formData : LeadModal.FormData num)
    (s : CRMContext.CRM num) : CRMContext.CRM num :=
  CRMContext.run user
    (leadOp now <$> LeadModal.calls (LeadModal.handleSubmit customerId leadId formData)) s.

End with_number.
End Forms.

(** ** The login page ([src/pages/Login.tsx]) *)

Module LoginPage.

Record FormData := {
  email : string;
  password : string;
  rememberMe : bool;
}.

(** [newErrors] as [validateForm] builds it and passes it to [setErrors]. *)
Definition newErrors (formData : FormData) : gmap string string :=
  let newErrors : gmap string string := ∅ in
  let newErrors :=
    if negb (str_truthy (email formData))
    then <["email" := "Email is required"]> newErrors
    else if negb (RegExp.test CustomerModal.emailRegExp (email formData))
    then <["email" := "Email is invalid"]> newErrors
    else newErrors in
  let newErrors :=
    if negb (str_truthy (password formData))
    then <["password" := "Password is required"]> newErrors
    else if str_length (password formData) <? 6
    then <["password" := "Password must be at least 6 characters"]> newErrors
    else newErrors in
  newErrors.

Definition validateForm (formData : FormData) : bool :=
  bool_decide (length (map_to_list (newErrors formData)).*1 = 0).

(** The arguments of the [login] that [handleSubmit] calls, if it does. *)
Definition handleSubmit (formData : FormData) : option (string * string * option bool) :=
  if negb (validateForm formData) then None
  else Some (email formData, password formData, Some (rememberMe formData)).

End LoginPage.

(** ** The customers page ([src/pages/Customers.tsx]) *)

Module CustomersPage.

Definition itemsPerPage : nat := 10.

(** The predicate of [filteredCustomers]. *)
Definition found (searchTerm : string) (customer : Customer.t) : bool :=
  includes (toLowerCase (Customer.name customer)) (toLowerCase searchTerm) ||
  includes (toLowerCase (Customer.email customer)) (toLowerCase searchTerm) ||
  match Customer.company customer with
  | Some company => includes (toLowerCase company) (toLowerCase searchTerm)
  | None => false
  end.

Definition filteredCustomers (customers : list Customer.t) (searchTerm : string)
    : list Customer.t :=
  filter (λ customer, found searchTerm customer = true) customers.

(** [Math.ceil(filteredCustomers.length / itemsPerPage)] *)
Definition totalPages (filteredCustomers : list Customer.t) : nat :=
  (length filteredCustomers + (itemsPerPage - 1)) / itemsPerPage.

Definition paginatedCustomers (filteredCustomers : list Customer.t) (currentPage : Z)
    : list Customer.t :=
  slice ((currentPage - 1) * Z.of_nat itemsPerPage) (currentPage * Z.of_nat itemsPerPage)
        filteredCustomers.

(** The updaters of the buttons Previous and Next. *)
Definition previousPage (prev : Z) : Z := Z.max (prev - 1) 1.
Definition nextPage (totalPages : nat) (prev : Z) : Z := Z.min (prev + 1) (Z.of_nat totalPages).

Section with_number.
Context `{Number num}.

Definition getCustomerLeadCount (leads : list (Lead.t num)) (customerId : string) : nat :=
  length (filter (λ lead, Lead.customerId lead = customerId) leads).

Definition getCustomerLeadValue (leads : list (Lead.t num)) (customerId : string) : num :=
  fold_left (λ sum lead, num_add sum (Lead.value lead))
            (filter (λ lead, Lead.customerId lead = customerId) leads) (num_of_Z 0).

End with_number.
End CustomersPage.

(** ** The page of a customer ([src/pages/CustomerDetail.tsx]) *)

Module CustomerDetail.
Section with_number.
Context `{Number num}.

(** [id ? getCustomer(id) : null] and [id ? getCustomerLeads(id) : []], for
    the [id] of the route, which may be missing. *)
Definition customer (view : CRMContext.CRM num) (id : option string) : option Customer.t :=
  if AuthContext.opt_truthy id then CRMContext.getCustomer view (default "" id) else None.

Definition allLeads (view : CRMContext.CRM num) (id : option string) : list (Lead.t num) :=
  if AuthContext.opt_truthy id then CRMContext.getCustomerLeads view (default "" id) else [].

Definition filteredLeads (allLeads : list (Lead.t num)) (statusFilter : string)
    : list (Lead.t num) :=
  if bool_decide (statusFilter = "all") then allLeads
  else filter (λ lead, Lead.key (Lead.status lead) = statusFilter) allLeads.

Definition totalLeads (allLeads : list (Lead.t num)) : nat := length allLeads.

Definition totalValue (allLeads : list (Lead.t num)) : num :=
  fold_left (λ sum lead, num_add sum (Lead.value lead)) allLeads (num_of_Z 0).

Definition convertedLeads (allLeads : list (Lead.t num)) : nat :=
  length (filter (λ lead, Lead.key (Lead.status lead) = "Converted") allLeads).

(** The page renders [<Navigate to="/customers" replace />] instead of the
    customer when there is none. *)
Definition redirects (view : CRMContext.CRM num) (id : option string) : bool :=
  match customer view id with
  | Some _ => false
  | None => true
  end.

End with_number.
End CustomerDetail.

(* ===================================================================== *)
(** * Part II. What the specification says, in the model's terms           *)
(* ===================================================================== *)

(** Every character of [s] satisfies [f]. *)
Fixpoint str_forallb (f : ascii → bool) (s : string) : bool :=
  match s with
  | EmptyString => true
  | String c s' => f c && str_forallb f s'
  end.

(** "Non-space characters": one or more, none of them white space. *)
Definition nonspaces (s : string) : Prop :=
  s ≠ "" ∧ str_forallb (λ c, negb (isWhiteSpace c)) s = true.

(** A string has the shape of an email address when it contains non-space
    characters, ['@'], non-space characters, ['.'], non-space characters. *)
Definition email_shape (s : string) : Prop :=
  ∃ pre a b c post,
    s = pre +:+ a +:+ "@" +:+ b +:+ "." +:+ c +:+ post ∧
    nonspaces a ∧ nonspaces b ∧ nonspaces c.

(** The strings a pattern denotes. *)
Fixpoint lang (p : RegExp.pattern) (m : string) : Prop :=
  match p with
  | [] => m = ""
  | RegExp.Once a :: p' =>
      ∃ c m', m = String c m' ∧ RegExp.atom_matches a c = true ∧ lang p' m'
  | RegExp.Plus a :: p' =>
      ∃ x m', m = x +:+ m' ∧ x ≠ "" ∧
              str_forallb (RegExp.atom_matches a) x = true ∧ lang p' m'
  end.

(** [l'] is [l] without its elements that satisfy [P]: each of them is
    dropped, each other element is kept, and the order is unchanged. *)
Inductive removed {A : Type} (P : A → Prop) : list A → list A → Prop :=
  | removed_nil : removed P [] []
  | removed_drop x l l' : P x → removed P l l' → removed P (x :: l) l'
  | removed_keep x l l' : ¬ P x → removed P l l' → removed P (x :: l) (x :: l').

(** The entries of a map added up, starting from [zero]. *)
Definition map_sum {A : Type} (op : A → A → A) (zero : A) (m : gmap string A) : A :=
  map_fold (λ _ v acc, op acc v) zero m.

#[export] Instance Status_eq_dec : EqDecision Lead.Status.
Proof. solve_decision. Defined.

(** A sum that is kept as [(acc || 0) + v]: it starts again from [0] when
    it has become falsy. *)
Definition accumulated `{Number num} (values : list num) : num :=
  fold_left (λ acc v, num_add (or_zero acc) v) values (num_of_Z 0).

(** The integers that the values of [leads] stand for, read off by
    [amount], added up. *)
Definition total (amount : float → Z) (leads : list (Lead.t float)) : Z :=
  foldr (λ lead sum, (amount (Lead.value lead) + sum)%Z) 0%Z leads.

(** The values of [leads] are whole amounts: each is the binary64 number
    of a non-negative integer, which [amount] reads off, and these integers
    total less than 2^53. *)
Definition whole_amount (amount : float → Z) (lead : Lead.t float) : Prop :=
  (0 ≤ amount (Lead.value lead))%Z ∧
  float_of_Z (amount (Lead.value lead)) = Lead.value lead.

Definition whole_amounts (amount : float → Z) (leads : list (Lead.t float)) : Prop :=
  Forall (whole_amount amount) leads ∧ (total amount leads < 2 ^ 53)%Z.

(** The totals per status of the integers that the values stand for. *)
Definition amount_step (amount : float → Z) (acc : gmap string Z) (lead : Lead.t float)
    : gmap string Z :=
  <[Lead.key (Lead.status lead) :=
      (default 0 (acc !! Lead.key (Lead.status lead)) + amount (Lead.value lead))%Z]> acc.

(** Every entry is a non-negative integer. *)
Definition nonneg (acc : gmap string Z) : Prop :=
  ∀ key x, acc !! key = Some x → (0 ≤ x)%Z.

(** The binary64 number of a positive integer [n] below 2^53: with [d] the
    number of binary digits of [n], the mantissa [n * 2^(53 - d)] and the
    exponent [d - 53]. *)
Definition canonical (n : positive) : spec_float :=
  S754_finite false (Pos.shiftl n (Z.to_N (53 - Z.pos (digits2_pos n))))
              (Z.pos (digits2_pos n) - 53).

(** A capital letter of Latin-1: [A]-[Z], or one of U+00C0-U+00DE but the
    multiplication sign U+00D7. *)
Definition capital (c : ascii) : Prop :=
  let n := N_of_ascii c in
  (65 ≤ n ≤ 90)%N ∨ ((192 ≤ n ≤ 222)%N ∧ n ≠ 215%N).

(** [c] and [d] are one character, or the capital and the small form of
    one letter, which is 32 further. *)
Definition same_letter (c d : ascii) : Prop :=
  c = d ∨
  (capital c ∧ N_of_ascii d = (N_of_ascii c + 32)%N) ∨
  (capital d ∧ N_of_ascii c = (N_of_ascii d + 32)%N).

(** [s] and [t] are equal, whatever the case of the letters. *)
Fixpoint equal_ignoring_case (s t : string) : Prop :=
  match s, t with
  | EmptyString, EmptyString => True
  | String c s', String d t' => same_letter c d ∧ equal_ignoring_case s' t'
  | _, _ => False
  end.

(** [text] contains [term], whatever the case of the letters (of Latin-1:
    the characters of the strings of this model). *)
Definition contains_ignoring_case (text term : string) : Prop :=
  ∃ pre found post,
    text = pre +:+ found +:+ post ∧ equal_ignoring_case found term.

(** The user that a login makes of the body of the API. *)
Definition userOf (data : AuthContext.LoginBody) (now : string) : User.t :=
  User.mk (AuthContext.api_id (AuthContext.body_user data))
          (AuthContext.api_name (AuthContext.body_user data))
          (AuthContext.api_email (AuthContext.body_user data))
          (AuthContext.api_role (AuthContext.body_user data)) now.

(** The strings of [leadStatuses]. *)
Definition status_names : list string := Lead.key <$> LeadModal.leadStatuses.

Section crm_predicates.
Context `{Number num}.
Import CRMContext.

(** Referential integrity: every lead belongs to a customer of the list. *)
Definition referential_integrity (s : CRM num) : Prop :=
  Forall (λ lead, Exists (λ customer, Customer._id customer = Lead.customerId lead)
                         (customers s))
         (leads s).

(** An operation that creates no dangling reference in state [s]: a lead
    is added for a customer of the list, an update of a lead leaves its
    [customerId] alone or sets it to a customer of the list, and an update
    of a customer leaves its [_id] alone. *)
Definition keeps_references (s : CRM num) (op : Op num) : Prop :=
  match op with
  | AddLead leadData _ =>
      Exists (λ customer, Customer._id customer = Lead.d_customerId leadData) (customers s)
  | UpdateLead _ leadData =>
      match Lead.p_customerId leadData with
      | Some customerId =>
          Exists (λ customer, Customer._id customer = customerId) (customers s)
      | None => True
      end
  | UpdateCustomer _ customerData => Customer.p_id customerData = None
  | AddCustomer _ _ | DeleteCustomer _ | DeleteLead _ => True
  end.

(** The states reached from the loaded state by such operations. *)
Inductive reachable (user : option User.t) : CRM num → Prop :=
  | reachable_loaded : reachable user (loaded user)
  | reachable_exec s op :
      reachable user s → keeps_references s op → reachable user (exec user s op).

(** Every lead of the state at run time has one of the four statuses. *)
Definition statuses_valid (s : Erased.CRM num) : Prop :=
  Forall (λ lead, Erased.status lead ∈ status_names) (Erased.leads s).


(** The sum of the values of the leads, from left to right. *)
Definition sum_of_values (leads : list (Lead.t num)) : num :=
  fold_left num_add (Lead.value <$> leads) (num_of_Z 0).

(** The sum of the entries of a [Record<string, number>]. *)
Definition sum_counts (m : gmap string nat) : nat := map_sum Nat.add 0 m.
Definition sum_values (m : gmap string num) : num := map_sum num_add (num_of_Z 0) m.

(** The aggregates of the dashboard are mutually consistent. *)
Definition stats_consistent (view : CRM num) (stats : DashboardStats num) : Prop :=
  totalCustomers stats = length (customers view) ∧
  totalLeads stats = length (leads view) ∧
  totalValue stats = sum_of_values (leads view) ∧
  sum_counts (leadsByStatus stats) = totalLeads stats ∧
  sum_values (valueByStatus stats) = totalValue stats.

End crm_predicates.

(* ===================================================================== *)
(** * Part III. Theorems                                                   *)
(* ===================================================================== *)

(** ** Strings *)

Lemma str_app_nil_l (s : string) : "" +:+ s = s.
Proof. reflexivity. Qed.

Lemma str_app_cons (c : ascii) (s t : string) : String c s +:+ t = String c (s +:+ t).
Proof. reflexivity. Qed.

Lemma str_app_nil_r (s : string) : s +:+ "" = s.
Proof. induction s as [|c s IH]; [done|]. by rewrite str_app_cons, IH. Qed.

Lemma str_app_assoc (s t u : string) : (s +:+ t) +:+ u = s +:+ t +:+ u.
Proof. induction s as [|c s IH]; [done|]. by rewrite !str_app_cons, IH. Qed.

Lemma str_app_eq_nil (s t : string) : s +:+ t = "" → s = "" ∧ t = "".
Proof. destruct s; [done|]. by rewrite str_app_cons. Qed.

Lemma str_forallb_app (f : ascii → bool) (s t : string) :
  str_forallb f (s +:+ t) = str_forallb f s && str_forallb f t.
Proof.
  induction s as [|c s IH]; [done|].
  rewrite str_app_cons. simpl. by rewrite IH, andb_assoc.
Qed.

Lemma trimStart_nil_iff (s : string) :
  trimStart s = "" ↔ str_forallb isWhiteSpace s = true.
Proof.
  induction s as [|c s IH]; simpl; [done|].
  destruct (isWhiteSpace c); simpl; [done|]. split; discriminate.
Qed.

Lemma trimEnd_nil_iff (s : string) :
  trimEnd s = "" ↔ str_forallb isWhiteSpace s = true.
Proof.
  induction s as [|c s IH]; simpl; [done|].
  destruct (trimEnd s) eqn:E.
  - destruct (isWhiteSpace c); simpl.
    + by rewrite <-IH.
    + split; discriminate.
  - split; [discriminate|].
    intros [_ Hs]%andb_prop. apply IH in Hs. discriminate.
Qed.

Lemma trimStart_suffix (s : string) : ∃ w, s = w +:+ trimStart s ∧ str_forallb isWhiteSpace w = true.
Proof.
  induction s as [|c s (w & Hw & Hall)]; simpl.
  - by exists "".
  - destruct (isWhiteSpace c) eqn:Hc.
    + exists (String c w). rewrite str_app_cons, <-Hw. simpl. by rewrite Hc, Hall.
    + by exists "".
Qed.

(** [trim] leaves nothing exactly when every character is white space. *)
Lemma trim_nil_iff (s : string) :
  trim s = "" ↔ str_forallb isWhiteSpace s = true.
Proof.
  unfold trim. rewrite trimEnd_nil_iff.
  destruct (trimStart_suffix s) as (w & Hw & Hall).
  rewrite Hw at 2. rewrite str_forallb_app, Hall. done.
Qed.

Lemma str_truthy_true (s : string) : str_truthy s = true ↔ s ≠ "".
Proof. unfold str_truthy. rewrite negb_true_iff, bool_decide_eq_false. done. Qed.

(** ** Regular expressions: the matcher computes the denotation *)

Lemma more_spec (a : RegExp.atom) (k : string → bool) (s : string) :
  RegExp.more a k s = true ↔
  ∃ x rest, s = x +:+ rest ∧ str_forallb (RegExp.atom_matches a) x = true ∧ k rest = true.
Proof.
  induction s as [|c s IH]; simpl.
  - split.
    + intros Hk. by exists "", "".
    + intros (x & rest & Hs & _ & Hk). symmetry in Hs.
      apply str_app_eq_nil in Hs as [_ ->]. done.
  - rewrite orb_true_iff, andb_true_iff, IH. split.
    + intros [[Hc (x & rest & -> & Hx & Hk)]|Hk].
      * exists (String c x), rest. simpl. by rewrite Hc, Hx.
      * by exists "", (String c s).
    + intros ([|c' x] & rest & Hs & Hx & Hk).
      * right. rewrite str_app_nil_l in Hs. by subst.
      * left. rewrite str_app_cons in Hs. simplify_eq/=.
        apply andb_prop in Hx as [Hc Hx]. split; [done|]. by exists x, rest.
Qed.

Lemma match_here_spec (p : RegExp.pattern) (s : string) :
  RegExp.match_here p s = true ↔ ∃ m rest, s = m +:+ rest ∧ lang p m.
Proof.
  revert s. induction p as [|[a|a] p IH]; intros s; simpl.
  - split; [|done]. intros _. by exists "", s.
  - destruct s as [|c s].
    + split; [done|]. intros (m & rest & Hs & c & m' & -> & _). done.
    + rewrite andb_true_iff, IH. split.
      * intros [Hc (m & rest & -> & Hm)].
        exists (String c m), rest. split; [done|]. by exists c, m.
      * intros (m & rest & Hs & c' & m' & -> & Hc & Hm).
        rewrite str_app_cons in Hs. simplify_eq. split; [done|]. by exists m', rest.
  - destruct s as [|c s].
    + split; [done|].
      intros (m & rest & Hs & x & m' & -> & Hx & _). symmetry in Hs.
      apply str_app_eq_nil in Hs as [[? _]%str_app_eq_nil _]. done.
    + rewrite andb_true_iff, more_spec. split.
      * intros [Hc (x & rest & -> & Hx & (m & rest' & -> & Hm)%IH)].
        exists (String c x +:+ m), rest'. split.
        { by rewrite str_app_assoc, str_app_cons. }
        exists (String c x), m. simpl. by rewrite Hc, Hx.
      * intros (m & rest & Hs & [|c' x] & m' & -> & Hne & Hx & Hm); [done|].
        rewrite str_app_assoc, str_app_cons in Hs. simplify_eq/=.
        apply andb_prop in Hx as [Hc Hx]. split; [done|].
        exists x, (m' +:+ rest). split_and!; [done..|].
        apply IH. by exists m', rest.
Qed.

Lemma test_spec (p : RegExp.pattern) (s : string) :
  RegExp.test p s = true ↔ ∃ pre m post, s = pre +:+ m +:+ post ∧ lang p m.
Proof.
  induction s as [|c s IH]; simpl; rewrite orb_true_iff, match_here_spec.
  - split.
    + intros [(m & rest & -> & Hm)|]; [|done]. by exists "", m, rest.
    + intros (pre & m & post & Hs & Hm). left. symmetry in Hs.
      apply str_app_eq_nil in Hs as [-> Hs]. by exists m, post.
  - rewrite IH. split.
    + intros [(m & rest & -> & Hm)|(pre & m & post & -> & Hm)].
      * by exists "", m, rest.
      * by exists (String c pre), m, post.
    + intros ([|c' pre] & m & post & Hs & Hm).
      * left. by exists m, post.
      * right. rewrite str_app_cons in Hs. simplify_eq. by exists pre, m, post.
Qed.

(** What [/\S+@\S+\.\S+/] denotes. *)
Lemma lang_emailRegExp (m : string) :
  lang CustomerModal.emailRegExp m ↔
  ∃ a b c, m = a +:+ "@" +:+ b +:+ "." +:+ c ∧ nonspaces a ∧ nonspaces b ∧ nonspaces c.
Proof.
  unfold CustomerModal.emailRegExp, nonspaces. simpl. split.
  - intros (a & m1 & -> & Ha & Ha' & c1 & m2 & -> & Hc1 & b & m3 & -> & Hb & Hb' &
            c2 & m4 & -> & Hc2 & c & m5 & -> & Hc & Hc' & ->).
    apply bool_decide_eq_true in Hc1 as ->. apply bool_decide_eq_true in Hc2 as ->.
    exists a, b, c. rewrite str_app_nil_r. done.
  - intros (a & b & c & -> & [Ha Ha'] & [Hb Hb'] & [Hc Hc']).
    exists a, ("@" +:+ b +:+ "." +:+ c). split_and!; [done..|].
    exists "@"%char, (b +:+ "." +:+ c). split_and!; [done..|].
    exists b, ("." +:+ c). split_and!; [done..|].
    exists "."%char, c. split_and!; [done..|].
    exists c, "". rewrite str_app_nil_r. done.
Qed.

(** [emailRegExp.test(s)] holds exactly of the strings of that shape. *)
Lemma test_emailRegExp (s : string) :
  RegExp.test CustomerModal.emailRegExp s = true ↔ email_shape s.
Proof.
  rewrite test_spec. unfold email_shape. split.
  - intros (pre & m & post & -> & (a & b & c & -> & Habc)%lang_emailRegExp).
    exists pre, a, b, c, post. split; [|done].
    f_equal. rewrite !str_app_assoc. reflexivity.
  - intros (pre & a & b & c & post & -> & Habc).
    exists pre, (a +:+ "@" +:+ b +:+ "." +:+ c), post. split.
    + f_equal. rewrite !str_app_assoc. reflexivity.
    + apply lang_emailRegExp. by exists a, b, c.
Qed.

(** ** The forms *)

Lemma no_keys_iff (m : gmap string string) :
  bool_decide (length (map_to_list m).*1 = 0) = true ↔ m = ∅.
Proof.
  rewrite bool_decide_eq_true, length_fmap. split.
  - intros Hlen. apply map_to_list_empty_iff. by apply nil_length_inv.
  - intros ->. by rewrite map_to_list_empty.
Qed.

Lemma CustomerModal_newErrors_empty (formData : CustomerModal.FormData) :
  CustomerModal.newErrors formData = ∅ ↔
  trim (CustomerModal.name formData) ≠ "" ∧
  trim (CustomerModal.email formData) ≠ "" ∧
  RegExp.test CustomerModal.emailRegExp (CustomerModal.email formData) = true.
Proof.
  unfold CustomerModal.newErrors.
  rewrite <-!str_truthy_true.
  destruct (str_truthy (trim (CustomerModal.name formData)));
    destruct (str_truthy (trim (CustomerModal.email formData)));
    destruct (RegExp.test _ (CustomerModal.email formData)); simpl;
    split; try done; try (by intros (? & ? & ?));
    intros Hne; by apply insert_non_empty in Hne.
Qed.

(** C3. The customer form is valid exactly when the name is non-empty after
    trimming and the email is non-empty after trimming and has the shape
    non-space characters, ['@'], non-space characters, ['.'], non-space
    characters; when it is not valid, a submit calls neither [addCustomer]
    nor [updateCustomer]. *)
Theorem CustomerModal_validateForm_spec (formData : CustomerModal.FormData) :
  (CustomerModal.validateForm formData = true ↔
     trim (CustomerModal.name formData) ≠ "" ∧
     trim (CustomerModal.email formData) ≠ "" ∧
     email_shape (CustomerModal.email formData)) ∧
  (∀ customerId,
     CustomerModal.validateForm formData = false →
     CustomerModal.calls (CustomerModal.handleSubmit customerId formData) = []).
Proof.
  split.
  - unfold CustomerModal.validateForm.
    by rewrite no_keys_iff, CustomerModal_newErrors_empty, test_emailRegExp.
  - intros customerId Hinvalid. unfold CustomerModal.handleSubmit.
    by rewrite Hinvalid.
Qed.

Lemma CustomerModal_validateForm_spec_witness :
  CustomerModal.validateForm
    {| CustomerModal.name := "Acme Corp"; CustomerModal.email := "contact@acme.com";
       CustomerModal.phone := ""; CustomerModal.company := "" |} = true ∧
  CustomerModal.calls
    (CustomerModal.handleSubmit (Some "1")
       {| CustomerModal.name := "Acme Corp"; CustomerModal.email := "contact at acme";
          CustomerModal.phone := ""; CustomerModal.company := "" |}) = [].
Proof.
  split.
  - apply (CustomerModal_validateForm_spec
             {| CustomerModal.name := "Acme Corp"; CustomerModal.email := "contact@acme.com";
                CustomerModal.phone := ""; CustomerModal.company := "" |}).
    split_and!; [done..|].
    exists "", "contact", "acme", "com", "". split; [reflexivity|].
    unfold nonspaces. split_and!; done.
  - apply (CustomerModal_validateForm_spec
             {| CustomerModal.name := "Acme Corp"; CustomerModal.email := "contact at acme";
                CustomerModal.phone := ""; CustomerModal.company := "" |}).
    reflexivity.
Defined.

Lemma status_is_set (st : Lead.Status) : str_truthy (Lead.key st) = true.
Proof. by destruct st. Qed.

Section lead_form.
Context `{Number num}.
Implicit Types formData : LeadModal.FormData num.

Lemma LeadModal_newErrors_empty formData :
  LeadModal.newErrors formData = ∅ ↔
  trim (LeadModal.title formData) ≠ "" ∧
  num_lt (LeadModal.value formData) (num_of_Z 0) = false.
Proof.
  unfold LeadModal.newErrors.
  rewrite status_is_set, <-str_truthy_true. simpl.
  destruct (str_truthy (trim (LeadModal.title formData)));
    destruct (num_lt (LeadModal.value formData) (num_of_Z 0)); simpl;
    split; try done; try (by intros [? ?]);
    intros Hne; by apply insert_non_empty in Hne.
Qed.

Lemma LeadModal_validateForm_iff formData :
  LeadModal.validateForm formData = true ↔
  trim (LeadModal.title formData) ≠ "" ∧
  num_lt (LeadModal.value formData) (num_of_Z 0) = false.
Proof.
  unfold LeadModal.validateForm. by rewrite no_keys_iff, LeadModal_newErrors_empty.
Qed.

Lemma LeadModal_value_error formData :
  num_lt (LeadModal.value formData) (num_of_Z 0) = true →
  LeadModal.newErrors formData !! "value" = Some "Value must be positive".
Proof.
  intros Hneg. unfold LeadModal.newErrors. rewrite Hneg.
  by rewrite lookup_insert_eq.
Qed.

Lemma num_ge_not_lt (a b : num) : num_ge a b = true → num_lt a b = false.
Proof.
  unfold num_ge, num_lt. by destruct (num_compare a b) as [[]|].
Qed.

Lemma num_ordered_lt_ge (a b : num) :
  is_Some (num_compare a b) → num_lt a b = negb (num_ge a b).
Proof.
  unfold num_ge, num_lt. intros [c Hc]. rewrite Hc. by destruct c.
Qed.

End lead_form.

(** ** Floating-point numbers *)

(** Every number but NaN is ordered against [0]. *)
Lemma float_ordered_0 (v : float) :
  PrimFloat.is_nan v = false → is_Some (float_compare v 0).
Proof.
  unfold PrimFloat.is_nan, float_compare.
  rewrite FloatAxioms.eqb_spec, FloatAxioms.compare_spec.
  change (Prim2SF 0) with (S754_zero false).
  destruct (Prim2SF v) as [s|s| |s m e]; simpl; try done.
  - by destruct s.
  - by destruct s.
Qed.

(** [x || 0] is never NaN. *)
Lemma float_or_zero_not_nan (x : float) : PrimFloat.is_nan (or_zero x) = false.
Proof.
  unfold or_zero. simpl. unfold float_truthy.
  destruct (PrimFloat.is_nan x) eqn:Hnan.
  - by rewrite orb_true_r.
  - rewrite orb_false_r. by destruct (PrimFloat.eqb x 0).
Qed.

(** C4. With a title that is non-empty after trimming (a status is always
    set), the lead form accepts a value [v] when [v >= 0], in particular
    the boundary value [0], and rejects it with the error on [value] when
    [v < 0]; so for every [v] that is ordered against [0], and for every
    value that the input of the form stores ([changeValue]), it accepts [v]
    if and only if [v >= 0]. *)
Theorem LeadModal_validateForm_value (formData : LeadModal.FormData float) :
  trim (LeadModal.title formData) ≠ "" →
  let v := LeadModal.value formData in
  (num_ge v 0%float = true → LeadModal.validateForm formData = true) ∧
  (v = 0%float → LeadModal.validateForm formData = true) ∧
  (num_lt v 0%float = true →
     LeadModal.validateForm formData = false ∧
     LeadModal.newErrors formData !! "value" = Some "Value must be positive") ∧
  (is_Some (num_compare v 0%float) →
     (LeadModal.validateForm formData = true ↔ num_ge v 0%float = true)) ∧
  (∀ parsed,
     let formData' := LeadModal.changeValue parsed formData in
     LeadModal.validateForm formData' = true ↔
     num_ge (LeadModal.value formData') 0%float = true).
Proof.
  intros Htitle v.
  assert (Hiff : ∀ formData' : LeadModal.FormData float,
            LeadModal.title formData' = LeadModal.title formData →
            is_Some (num_compare (LeadModal.value formData') 0%float) →
            LeadModal.validateForm formData' = true ↔
            num_ge (LeadModal.value formData') 0%float = true).
  { intros formData' Hsame Hordered. rewrite LeadModal_validateForm_iff, Hsame. simpl.
    rewrite num_ordered_lt_ge by done. rewrite negb_false_iff.
    split; [by intros [_ ?] | by split]. }
  split_and!.
  - intros Hge%num_ge_not_lt. by apply LeadModal_validateForm_iff.
  - intros Hzero. apply Hiff; [done| |]; fold v; by rewrite Hzero.
  - intros Hneg. split; [|by apply LeadModal_value_error].
    apply not_true_is_false. intros [_ Hlt]%LeadModal_validateForm_iff.
    fold v in Hlt. simpl in Hlt. congruence.
  - intros Hordered. by apply Hiff.
  - intros parsed formData'. apply Hiff; [done|].
    apply float_ordered_0, float_or_zero_not_nan.
Qed.

Lemma LeadModal_validateForm_value_witness :
  LeadModal.validateForm (LeadModal.mk "Cloud Migration" "" Lead.Converted 75000%float) = true ∧
  LeadModal.validateForm (LeadModal.mk "Cloud Migration" "" Lead.Converted (-1)%float) = false.
Proof.
  split.
  - destruct (LeadModal_validateForm_value
                (LeadModal.mk "Cloud Migration" "" Lead.Converted 75000%float))
      as (Hge & _); [done|].
    apply Hge. reflexivity.
  - destruct (LeadModal_validateForm_value
                (LeadModal.mk "Cloud Migration" "" Lead.Converted (-1)%float))
      as (_ & _ & Hlt & _); [done|].
    apply Hlt. reflexivity.
Defined.

(** The blank form is rejected for its title, not for its value. *)
Example LeadModal_blank_rejected :
  LeadModal.validateForm (num := float) LeadModal.blank = false ∧
  LeadModal.newErrors (num := float) LeadModal.blank = {["title" := "Title is required"]}.
Proof. done. Qed.

(** NaN is neither negative nor [>= 0]: [validateForm] lets it through. The
    input of the form never stores it ([float_or_zero_not_nan]). *)
Remark LeadModal_validateForm_NaN :
  LeadModal.validateForm (LeadModal.mk "Cloud Migration" "" Lead.Converted NaN) = true ∧
  num_ge NaN 0%float = false ∧ num_lt NaN 0%float = false.
Proof. done. Qed.

(** ** Lists *)

Lemma Forall_filter {A : Type} (P Q : A → Prop) `{!∀ x, Decision (P x)} (l : list A) :
  Forall Q l → Forall Q (filter P l).
Proof.
  induction 1 as [|x l Hx _ IH]; [done|]. rewrite filter_cons.
  destruct (decide (P x)); [by constructor|done].
Qed.

Section removed.
Context {A : Type} (P : A → Prop) `{!∀ x, Decision (P x)}.

(** [filter] with the negation of [P] removes the elements that satisfy [P]. *)
Lemma removed_filter (l : list A) : removed P l (filter (λ x, ¬ P x) l).
Proof.
  induction l as [|x l IH]; [constructor|].
  rewrite filter_cons. destruct (decide (¬ P x)) as [Hx|Hx].
  - by apply removed_keep.
  - apply removed_drop; [|done]. by apply dec_stable.
Qed.

(** The result of a removal is determined. *)
Lemma removed_unique (l l1 l2 : list A) : removed P l l1 → removed P l l2 → l1 = l2.
Proof.
  intros H1. revert l2.
  induction H1 as [|x l l1 Hx _ IH|x l l1 Hx _ IH]; intros l2 H2;
    inversion H2; simplify_eq; try done; [by apply IH | f_equal; by apply IH].
Qed.

Lemma removed_elem_of (l l' : list A) (x : A) :
  removed P l l' → x ∈ l' ↔ x ∈ l ∧ ¬ P x.
Proof.
  induction 1 as [|y l l' Hy _ IH|y l l' Hy _ IH].
  - rewrite elem_of_nil. tauto.
  - rewrite elem_of_cons, IH. intuition (subst; tauto).
  - rewrite !elem_of_cons, IH. intuition (subst; tauto).
Qed.

Lemma removed_sublist (l l' : list A) : removed P l l' → sublist l' l.
Proof. induction 1; by constructor. Qed.

End removed.

(** ** The CRM context *)

Section crm.
Context `{Number num}.
Import CRMContext.
Implicit Types (s view : CRM num) (id : string) (user : option User.t).

(** C1. [deleteCustomer(id)] removes every customer whose [_id] is [id] and
    every lead whose [customerId] is [id]; all other customers and leads
    stay, in their original order. *)
Theorem deleteCustomer_cascades s id :
  let s' := deleteCustomer id s in
  removed (λ customer, Customer._id customer = id) (customers s) (customers s') ∧
  removed (λ lead, Lead.customerId lead = id) (leads s) (leads s') ∧
  (∀ customer, customer ∈ customers s' ↔
                 customer ∈ customers s ∧ Customer._id customer ≠ id) ∧
  (∀ lead, lead ∈ leads s' ↔ lead ∈ leads s ∧ Lead.customerId lead ≠ id) ∧
  sublist (customers s') (customers s) ∧
  sublist (leads s') (leads s).
Proof.
  simpl.
  pose proof (removed_filter (λ customer, Customer._id customer = id) (customers s)) as Hc.
  pose proof (removed_filter (λ lead : Lead.t num, Lead.customerId lead = id) (leads s)) as Hl.
  split_and!; try done.
  - intros customer. exact (removed_elem_of _ _ _ customer Hc).
  - intros lead. exact (removed_elem_of _ _ _ lead Hl).
  - by eapply removed_sublist.
  - by eapply removed_sublist.
Qed.

(** C10. Without a logged-in user, [addCustomer] returns at once: no setter
    runs, so the customers, the leads and the loading flag are what they
    were (and no toast is shown), whatever render the handler is from. *)
Theorem addCustomer_no_user view customerData now s :
  addCustomer None view customerData now s = s ∧
  customers (addCustomer None view customerData now s) = customers s ∧
  leads (addCustomer None view customerData now s) = leads s ∧
  loading (addCustomer None view customerData now s) = loading s.
Proof. done. Qed.

End crm.

Section crm_sequences.
Context `{Number num}.
Import CRMContext.
Implicit Types (s view : CRM num) (id : string) (user : option User.t) (op : Op num).

Lemma addCustomer_customers (u : User.t) view customerData now s :
  customers (addCustomer (Some u) view customerData now s) =
  customers s ++
    [Customer.mk (String_of_nat (length (customers view) + 1))
                 (Customer.d_name customerData) (Customer.d_email customerData)
                 (Customer.d_phone customerData) (Customer.d_company customerData)
                 (User._id u) now].
Proof. done. Qed.

(** C9. [addCustomer] gives the new customer the [_id]
    [String(customers.length + 1)], so the [_id]s need not stay unique: after
    two adds, the deletion of customer ["1"] and one more add on the loaded
    state, the list has two different customers of [_id] ["5"], of which
    [getCustomer] returns the first. *)
Theorem customer_ids_not_unique :
  (∀ (u : User.t) s customerData now,
     ∃ customer,
       customers (exec (Some u) s (AddCustomer customerData now)) =
         customers s ++ [customer] ∧
       Customer._id customer = String_of_nat (length (customers s) + 1)) ∧
  ∃ (u : User.t) (ops : list (Op num)),
    let s := run (Some u) ops (loaded (Some u)) in
    ∃ i j customer1 customer2,
      i < j ∧
      customers s !! i = Some customer1 ∧
      customers s !! j = Some customer2 ∧
      customer1 ≠ customer2 ∧
      Customer._id customer1 = Customer._id customer2 ∧
      getCustomer s (Customer._id customer1) = Some customer1.
Proof.
  split.
  - intros u s customerData now. eexists. split; [apply addCustomer_customers|done].
  - exists (User.mk "1" "Ada" "ada@crm.test" User.Admin "2024-03-01T08:00:00Z").
    exists [AddCustomer (Customer.mk_data "Initech" "sales@initech.com" None None)
                        "2024-03-01T09:00:00Z";
            AddCustomer (Customer.mk_data "Hooli" "hello@hooli.com" None None)
                        "2024-03-01T09:05:00Z";
            DeleteCustomer "1";
            AddCustomer (Customer.mk_data "Umbrella" "info@umbrella.com" None None)
                        "2024-03-01T09:10:00Z"].
    exists 3, 4.
    exists (Customer.mk "5" "Hooli" "hello@hooli.com" None None "1" "2024-03-01T09:05:00Z").
    exists (Customer.mk "5" "Umbrella" "info@umbrella.com" None None "1"
                        "2024-03-01T09:10:00Z").
    split_and!; [lia | reflexivity | reflexivity | discriminate | reflexivity | reflexivity].
Qed.

(** *** Statuses *)

Lemma status_valid (st : Lead.Status) :
  st ∈ LeadModal.leadStatuses ∧
  Lead.key st ∈ ["New"; "Contacted"; "Converted"; "Lost"].
Proof.
  unfold LeadModal.leadStatuses.
  destruct st; simpl; split; rewrite !elem_of_cons; tauto.
Qed.








(** The operations themselves check nothing: a status that is not one of
    the four, which only a caller that escapes the type checker passes, is
    stored as it is. *)
Remark unchecked_status_is_stored (view s : Erased.CRM num) (leadData : Erased.data num)
    (now : string) :
  Erased.d_status leadData ∉ status_names →
  ¬ statuses_valid (Erased.addLead view leadData now s).
Proof.
  unfold statuses_valid, Erased.addLead, Erased.setLoading, Erased.toast, Erased.setLeads,
    Erased.sleep.
  simpl. intros Hbad [_ Hnew]%Forall_app. rewrite Forall_singleton in Hnew. by apply Hbad.
Qed.

End crm_sequences.


(** ** Referential integrity *)

(** Finds the customer of the list that has the [_id] asked for. *)
Ltac find_customer :=
  first [ by apply Exists_cons_hd | apply Exists_cons_tl; find_customer ].

Section integrity.
Context `{Number num}.
Import CRMContext.
Implicit Types (s view : CRM num) (id : string) (user : option User.t) (op : Op num).

Lemma referential_integrity_alt s :
  referential_integrity s ↔
  ∀ lead, lead ∈ leads s →
    ∃ customer, customer ∈ customers s ∧ Customer._id customer = Lead.customerId lead.
Proof.
  unfold referential_integrity. rewrite Forall_forall.
  by setoid_rewrite Exists_exists.
Qed.

Lemma integrity_loaded user : referential_integrity (loaded user).
Proof.
  destruct user as [u|]; [|by apply Forall_nil].
  unfold referential_integrity, loaded, mockLeads, mockCustomers. simpl.
  repeat (apply Forall_cons_2; [find_customer|]). apply Forall_nil_2.
Qed.

Lemma integrity_addCustomer user view customerData now s :
  referential_integrity s →
  referential_integrity (addCustomer user view customerData now s).
Proof.
  destruct user as [u|]; [|done].
  rewrite !referential_integrity_alt. simpl.
  intros Hs lead (customer & Hin & Hid)%Hs.
  exists customer. split; [|done]. apply elem_of_app. by left.
Qed.

(** A patch without [_id] leaves the [_id] alone. *)
Lemma spread_keeps_id (customer : Customer.t) (customerData : Customer.partial) :
  Customer.p_id customerData = None →
  Customer._id (Customer.spread customer customerData) = Customer._id customer.
Proof. intros Hid. unfold Customer.spread. by rewrite Hid. Qed.

Lemma integrity_updateCustomer id customerData s :
  Customer.p_id customerData = None →
  referential_integrity s →
  referential_integrity (updateCustomer id customerData s).
Proof.
  rewrite !referential_integrity_alt. simpl.
  intros Hpatch Hs lead (customer & Hin & Hid)%Hs.
  eexists. split; [by apply list_elem_of_fmap_2|].
  destruct (bool_decide _); [|done]. by rewrite spread_keeps_id.
Qed.

(** The cascade: a lead that stays after [deleteCustomer(id)] belongs to a
    customer that stays. *)
Lemma integrity_deleteCustomer id s :
  referential_integrity s → referential_integrity (deleteCustomer id s).
Proof.
  rewrite !referential_integrity_alt. simpl.
  intros Hs lead [Hne (customer & Hin & Hid)%Hs]%list_elem_of_filter.
  exists customer. split; [|done]. apply list_elem_of_filter. split; [|done].
  by rewrite Hid.
Qed.

Lemma integrity_addLead view leadData now s :
  Exists (λ customer, Customer._id customer = Lead.d_customerId leadData) (customers s) →
  referential_integrity s →
  referential_integrity (addLead view leadData now s).
Proof.
  rewrite !referential_integrity_alt, Exists_exists. simpl.
  intros Hnew Hs lead [Hin| ->%list_elem_of_singleton]%elem_of_app; [by apply Hs|done].
Qed.

Lemma integrity_updateLead id leadData s :
  match Lead.p_customerId leadData with
  | Some customerId => Exists (λ customer, Customer._id customer = customerId) (customers s)
  | None => True
  end →
  referential_integrity s →
  referential_integrity (updateLead id leadData s).
Proof.
  rewrite !referential_integrity_alt. simpl.
  intros Hpatch Hs ? (lead & -> & Hin)%list_elem_of_fmap.
  destruct (bool_decide _); [|by apply Hs].
  unfold Lead.spread. simpl.
  destruct (Lead.p_customerId leadData) as [customerId|]; simpl.
  - by apply Exists_exists in Hpatch.
  - by apply Hs.
Qed.

Lemma integrity_deleteLead id s :
  referential_integrity s → referential_integrity (deleteLead id s).
Proof.
  rewrite !referential_integrity_alt. simpl.
  intros Hs lead [_ Hin]%list_elem_of_filter. by apply Hs.
Qed.

Lemma integrity_exec user s op :
  keeps_references s op → referential_integrity s →
  referential_integrity (exec user s op).
Proof.
  destruct op; simpl; intros Hop Hs.
  - by apply integrity_addCustomer.
  - by apply integrity_updateCustomer.
  - by apply integrity_deleteCustomer.
  - by apply integrity_addLead.
  - by apply integrity_updateLead.
  - by apply integrity_deleteLead.
Qed.

(** C2, amended. Referential integrity holds in every state reached from
    the loaded state by operations that create no dangling reference
    ([keeps_references]): [addCustomer], [deleteCustomer], which cascades to
    the leads of the customer, and [deleteLead] always; [addLead] for a
    customer of the list; [updateLead] and [updateCustomer] when they leave
    the reference and the [_id] alone. *)
Theorem referential_integrity_reachable user s :
  reachable user s → referential_integrity s.
Proof.
  induction 1 as [|s op _ IH Hop].
  - apply integrity_loaded.
  - by apply integrity_exec.
Qed.

End integrity.

Lemma referential_integrity_reachable_witness :
  let user := Some (User.mk "1" "Ada" "ada@crm.test" User.Admin "2024-03-01T08:00:00Z") in
  let s1 := CRMContext.exec (num := float) user (CRMContext.loaded user)
              (CRMContext.AddLead
                 (Lead.mk_data "2" "Support plan" None Lead.New 1200%float)
                 "2024-03-01T09:00:00Z") in
  let s2 := CRMContext.exec user s1 (CRMContext.DeleteCustomer "1") in
  reachable user s2 ∧ referential_integrity s2.
Proof.
  intros user s1 s2.
  assert (Hreach : reachable user s2).
  { apply reachable_exec; [|exact I].
    apply reachable_exec; [apply reachable_loaded|].
    simpl. find_customer. }
  split; [exact Hreach|].
  exact (referential_integrity_reachable user s2 Hreach).
Defined.

(** C2 as stated fails: [addLead] does not look at the customers, so a lead
    can be added for a customer that is not in the list. *)
Lemma referential_integrity_counterexample :
  ∃ (user : option User.t) (ops : list (CRMContext.Op float)),
    ¬ referential_integrity (CRMContext.run user ops (CRMContext.loaded user)).
Proof.
  exists (Some (User.mk "1" "Ada" "ada@crm.test" User.Admin "2024-03-01T08:00:00Z")).
  exists [CRMContext.AddLead
            (Lead.mk_data "99" "Orphan" None Lead.New 1200%float)
            "2024-03-01T09:00:00Z"].
  unfold referential_integrity. intros Hall.
  apply (bool_decide_pack _) in Hall. vm_compute in Hall. done.
Qed.

(** Neither do [updateLead] and [updateCustomer]: moving a lead to a
    customer that is not in the list, or changing the [_id] of a customer
    that has leads, breaks referential integrity as well. *)
Remark unguarded_updates_break_integrity :
  let user := Some (User.mk "1" "Ada" "ada@crm.test" User.Admin "2024-03-01T08:00:00Z") in
  ¬ referential_integrity
      (CRMContext.exec (num := float) user (CRMContext.loaded user)
         (CRMContext.UpdateLead "1"
            (Lead.mk_partial None (Some "99") None None None None None))) ∧
  ¬ referential_integrity
      (CRMContext.exec (num := float) user (CRMContext.loaded user)
         (CRMContext.UpdateCustomer "1"
            (Customer.mk_partial (Some "99") None None None None None None))).
Proof.
  split; unfold referential_integrity; intros Hall;
    apply (bool_decide_pack _) in Hall; vm_compute in Hall; done.
Qed.

(** ** The authentication context *)

Section auth.
Import AuthContext.
Variable JSON_stringify : User.t → string.
Implicit Types (s : Auth) (data : LoginBody).

(** C6. After a login that the API accepts, the token and the serialized
    user are under the keys [crm_token] and [crm_user] of [localStorage]
    when [rememberMe] is true and of [sessionStorage] when it is false or
    left out; the other storage is untouched; and the [user] and [token] of
    the provider are the ones the API returned. *)
Theorem login_persists email password (rememberMe : option bool) data now s :
  let result := login JSON_stringify email password rememberMe (Resolved data) now s in
  let s' := result.1 in
  let userData :=
    User.mk (api_id (body_user data)) (api_name (body_user data))
            (api_email (body_user data)) (api_role (body_user data)) now in
  result.2 = inr () ∧
  user s' = Some userData ∧
  token s' = Some (body_token data) ∧
  (if default false rememberMe
   then localStorage s' !! "crm_token" = Some (body_token data) ∧
        localStorage s' !! "crm_user" = Some (JSON_stringify userData) ∧
        sessionStorage s' = sessionStorage s
   else sessionStorage s' !! "crm_token" = Some (body_token data) ∧
        sessionStorage s' !! "crm_user" = Some (JSON_stringify userData) ∧
        localStorage s' = localStorage s).
Proof.
  intros result s' userData. subst result s' userData. unfold login, persist.
  destruct rememberMe as [[|]|]; simpl; unfold setItem; split_and!;
    first [ done
          | by rewrite lookup_insert_eq
          | by rewrite lookup_insert_ne, lookup_insert_eq ].
Qed.

(** C7. [logout()] sets [user] and [token] to [null] and removes the keys
    [crm_token] and [crm_user] from both storages, whatever the state was;
    the other keys stay. *)
Theorem logout_clears s :
  let s' := logout s in
  user s' = None ∧
  token s' = None ∧
  localStorage s' !! "crm_token" = None ∧
  localStorage s' !! "crm_user" = None ∧
  sessionStorage s' !! "crm_token" = None ∧
  sessionStorage s' !! "crm_user" = None ∧
  localStorage s' = delete "crm_user" (delete "crm_token" (localStorage s)) ∧
  sessionStorage s' = delete "crm_user" (delete "crm_token" (sessionStorage s)).
Proof.
  intros s'. subst s'. unfold logout, removeItem. simpl. split_and!; try done.
  - by rewrite lookup_delete_ne, lookup_delete_eq.
  - by rewrite lookup_delete_eq.
  - by rewrite lookup_delete_ne, lookup_delete_eq.
  - by rewrite lookup_delete_eq.
Qed.

End auth.

(** ** The dashboard *)

(** Sums over the entries of a map, for an operation that is associative
    and commutative. *)
Section map_sum.
Context {A : Type} (op : A → A → A) (zero : A).
Hypothesis op_assoc : ∀ a b c, op a (op b c) = op (op a b) c.
Hypothesis op_comm : ∀ a b, op a b = op b a.

Lemma map_sum_insert (m : gmap string A) (k : string) (v : A) :
  m !! k = None → map_sum op zero (<[k := v]> m) = op (map_sum op zero m) v.
Proof.
  intros Hk. unfold map_sum. rewrite map_fold_insert_L; [done| |done].
  intros j1 j2 z1 z2 y _ _ _. simpl.
  by rewrite <-!op_assoc, (op_comm z1 z2).
Qed.

Lemma map_sum_lookup (m : gmap string A) (k : string) (old : A) :
  m !! k = Some old → map_sum op zero m = op (map_sum op zero (delete k m)) old.
Proof.
  intros Hk. rewrite <-(insert_delete_id m k old) at 1 by done.
  apply map_sum_insert, lookup_delete_eq.
Qed.

Lemma map_sum_update (m : gmap string A) (k : string) (old v : A) :
  m !! k = Some old → map_sum op zero (<[k := op old v]> m) = op (map_sum op zero m) v.
Proof.
  intros Hk. rewrite <-insert_delete_eq, map_sum_insert by apply lookup_delete_eq.
  by rewrite (map_sum_lookup m k old), op_assoc.
Qed.

End map_sum.

Lemma fold_left_fmap {A B C : Type} (f : C → B → C) (g : A → B) (l : list A) (c : C) :
  fold_left f (g <$> l) c = fold_left (λ acc x, f acc (g x)) l c.
Proof. revert c. induction l as [|x l IH]; intros c; simpl; [done|apply IH]. Qed.

(** ** Binary64 adds small integers exactly

    The sum of two non-negative integers is computed without rounding as
    long as it stays below 2^53. The proof follows the specification of
    [PrimFloat.add] and [PrimFloat.of_uint63] in [FloatAxioms]: an integer
    [n] below 2^53 is the number of mantissa [n * 2^(53 - d)] and exponent
    [d - 53], where [d] is the number of binary digits of [n]. *)

Section binary64.
Local Open Scope Z_scope.
Implicit Types (n q : positive) (k j : N) (e : Z).

Lemma shiftl_value n k : Z.pos (Pos.shiftl n k) = Z.pos n * 2 ^ Z.of_N k.
Proof.
  destruct k as [|p]; [change (Z.of_N 0) with 0; by rewrite Z.pow_0_r, Z.mul_1_r|].
  change (Z.of_N (N.pos p)) with (Z.pos p).
  change (Pos.shiftl n (N.pos p)) with (Pos.iter xO n p).
  induction p as [|p IH] using Pos.peano_ind.
  - simpl. lia.
  - rewrite Pos.iter_succ, Pos2Z.inj_xO, IH, Pos2Z.inj_succ, Z.pow_succ_r by lia. lia.
Qed.

Lemma shiftl_digits n k :
  Z.pos (digits2_pos (Pos.shiftl n k)) = Z.pos (digits2_pos n) + Z.of_N k.
Proof.
  destruct k as [|p]; [change (Z.of_N 0) with 0; by rewrite Z.add_0_r|].
  change (Z.of_N (N.pos p)) with (Z.pos p).
  change (Pos.shiftl n (N.pos p)) with (Pos.iter xO n p).
  induction p as [|p IH] using Pos.peano_ind.
  - simpl. lia.
  - rewrite Pos.iter_succ. simpl digits2_pos. rewrite Pos2Z.inj_succ, IH. lia.
Qed.

Lemma digits_bounds n :
  2 ^ (Z.pos (digits2_pos n) - 1) ≤ Z.pos n < 2 ^ Z.pos (digits2_pos n).
Proof.
  induction n as [n IH|n IH|]; simpl digits2_pos.
  - rewrite Pos2Z.inj_succ, (Pos2Z.inj_xI n), Z.pow_succ_r by lia.
    replace (Z.succ (Z.pos (digits2_pos n)) - 1) with (Z.succ (Z.pos (digits2_pos n) - 1))
      by lia.
    rewrite Z.pow_succ_r by lia. lia.
  - rewrite Pos2Z.inj_succ, (Pos2Z.inj_xO n), Z.pow_succ_r by lia.
    replace (Z.succ (Z.pos (digits2_pos n)) - 1) with (Z.succ (Z.pos (digits2_pos n) - 1))
      by lia.
    rewrite Z.pow_succ_r by lia. lia.
  - simpl. lia.
Qed.

Lemma digits_le n : Z.pos n < 2 ^ 53 → Z.pos (digits2_pos n) ≤ 53.
Proof.
  intros Hn. destruct (Z.le_gt_cases (Z.pos (digits2_pos n)) 53) as [|Hgt]; [done|].
  pose proof (digits_bounds n) as [Hlow _].
  assert (2 ^ 53 ≤ 2 ^ (Z.pos (digits2_pos n) - 1)) by (apply Z.pow_le_mono_r; lia).
  lia.
Qed.

Lemma iter_pos_iter {A : Type} (f : A → A) (p : positive) (x : A) :
  SpecFloat.iter_pos f p x = Pos.iter f x p.
Proof.
  revert x. induction p as [p IH|p IH|]; intros x; simpl; [|by rewrite !IH|done].
  by rewrite !IH, !Pos.iter_swap.
Qed.

(** Shifting out zeros is exact. *)
Lemma shr_exact q (p : positive) :
  SpecFloat.iter_pos shr_1 p
    {| shr_m := Z.pos (Pos.iter xO q p); shr_r := false; shr_s := false |} =
  {| shr_m := Z.pos q; shr_r := false; shr_s := false |}.
Proof.
  rewrite iter_pos_iter. induction p as [|p IH] using Pos.peano_ind; [done|].
  by rewrite Pos.iter_succ, <-Pos.iter_swap, Pos.iter_succ.
Qed.

Lemma round_aux_exact q j e :
  Z.pos (digits2_pos q) = 53 → -1074 ≤ e ≤ 971 →
  binary_round_aux prec emax false (Z.pos (Pos.shiftl q j)) (e - Z.of_N j) loc_Exact =
  S754_finite false q e.
Proof.
  intros Hq He. unfold binary_round_aux, shr_fexp, Zdigits2.
  rewrite shiftl_digits, Hq.
  replace (fexp prec emax (53 + Z.of_N j + (e - Z.of_N j)) - (e - Z.of_N j)) with (Z.of_N j)
    by (unfold fexp, SpecFloat.emin, prec, emax; lia).
  assert (Hshr : shr (shr_record_of_loc (Z.pos (Pos.shiftl q j)) loc_Exact)
                     (e - Z.of_N j) (Z.of_N j)
                 = ({| shr_m := Z.pos q; shr_r := false; shr_s := false |}, e)).
  { destruct j as [|p]; simpl.
    - f_equal. lia.
    - change (Pos.shiftl q (N.pos p)) with (Pos.iter xO q p).
      rewrite shr_exact. f_equal. lia. }
  rewrite Hshr. simpl. rewrite Hq.
  replace (fexp prec emax (53 + e) - e) with 0
    by (unfold fexp, SpecFloat.emin, prec, emax; lia).
  simpl. destruct (Z.leb_spec e (emax - prec)); [done|]. unfold emax, prec in *. lia.
Qed.

Lemma normalize_exact n k :
  Z.pos n < 2 ^ 53 → (k ≤ 1000)%N →
  binary_normalize prec emax (Z.pos (Pos.shiftl n k)) (- Z.of_N k) false = canonical n.
Proof.
  intros Hn%digits_le Hk. unfold binary_normalize, binary_round, canonical.
  set (d := Z.pos (digits2_pos n)) in *.
  assert (Hd : 1 ≤ d) by (unfold d; lia).
  rewrite shiftl_digits. fold d.
  replace (fexp prec emax (d + Z.of_N k + - Z.of_N k)) with (d - 53)
    by (unfold fexp, SpecFloat.emin, prec, emax; lia).
  set (q := Pos.shiftl n (Z.to_N (53 - d))).
  assert (Hq : Z.pos (digits2_pos q) = 53) by (unfold q; rewrite shiftl_digits; fold d; lia).
  assert (Hqv : Z.pos q = Z.pos n * 2 ^ (53 - d)).
  { unfold q. rewrite shiftl_value. f_equal. f_equal. lia. }
  unfold shl_align.
  destruct (d - 53 - - Z.of_N k) as [|t|t] eqn:Ht.
  - replace (Pos.shiftl n k) with (Pos.shiftl q 0).
    + replace (- Z.of_N k) with ((d - 53) - Z.of_N 0) by lia.
      apply round_aux_exact; [done|lia].
    + replace k with (Z.to_N (53 - d)) by lia. reflexivity.
  - replace (Pos.shiftl n k) with (Pos.shiftl q (N.pos t)).
    + replace (- Z.of_N k) with ((d - 53) - Z.of_N (N.pos t)) by lia.
      apply round_aux_exact; [done|lia].
    + apply Pos2Z.inj. rewrite !shiftl_value, Hqv, <-!Z.mul_assoc, <-!Z.pow_add_r by lia.
      f_equal. f_equal. lia.
  - replace (Pos.iter xO (Pos.shiftl n k) t) with (Pos.shiftl q 0).
    + replace (d - 53) with ((d - 53) - Z.of_N 0) at 1 by lia.
      apply round_aux_exact; [done|lia].
    + apply Pos2Z.inj. change (Pos.iter xO ?x t) with (Pos.shiftl x (N.pos t)).
      rewrite !shiftl_value, Hqv, <-!Z.mul_assoc, <-!Z.pow_add_r by lia.
      f_equal. f_equal. lia.
Qed.

Lemma float_of_Z_pos n : Z.pos n < 2 ^ 53 → Prim2SF (float_of_Z (Z.pos n)) = canonical n.
Proof.
  intros Hn. unfold float_of_Z. rewrite of_uint63_spec, Uint63.of_Z_spec.
  rewrite Z.mod_small.
  - apply (normalize_exact n 0); [done|lia].
  - split; [lia|]. eapply Z.lt_trans; [done|]. by vm_compute.
Qed.

Lemma align_canonical n e :
  Z.pos n < 2 ^ 53 → e ≤ Z.pos (digits2_pos n) - 53 →
  (shl_align (Pos.shiftl n (Z.to_N (53 - Z.pos (digits2_pos n))))
             (Z.pos (digits2_pos n) - 53) e).1 = Pos.shiftl n (Z.to_N (- e)).
Proof.
  intros Hn%digits_le He. unfold shl_align.
  destruct (e - (Z.pos (digits2_pos n) - 53)) as [|t|t] eqn:Ht; simpl.
  - f_equal. lia.
  - lia.
  - apply Pos2Z.inj. change (Pos.iter xO ?x t) with (Pos.shiftl x (N.pos t)).
    rewrite !shiftl_value, <-!Z.mul_assoc, <-!Z.pow_add_r by lia. f_equal. f_equal. lia.
Qed.

Lemma SFadd_canonical a b :
  Z.pos a + Z.pos b < 2 ^ 53 → SF64add (canonical a) (canonical b) = canonical (a + b).
Proof.
  intros Hab. unfold canonical at 1 2. unfold SF64add, SFadd. cbv beta iota zeta.
  set (ez := Z.min _ _).
  rewrite !align_canonical by (unfold ez; lia). simpl cond_Zopp.
  assert (Hez : -52 ≤ ez ≤ 0).
  { pose proof (digits_le a ltac:(lia)). pose proof (digits_le b ltac:(lia)). unfold ez. lia. }
  replace (Z.pos (Pos.shiftl a (Z.to_N (- ez))) + Z.pos (Pos.shiftl b (Z.to_N (- ez))))
    with (Z.pos (Pos.shiftl (a + b) (Z.to_N (- ez)))).
  - replace ez with (- Z.of_N (Z.to_N (- ez))) at 2 by lia.
    apply normalize_exact; lia.
  - rewrite !shiftl_value. lia.
Qed.

Lemma float_add_exact (a b : Z) :
  0 ≤ a → 0 ≤ b → a + b < 2 ^ 53 →
  (float_of_Z a + float_of_Z b)%float = float_of_Z (a + b).
Proof.
  intros Ha Hb Hab. apply Prim2SF_inj. rewrite add_spec.
  destruct a as [|a|a]; [|destruct b as [|b|b]|]; try lia.
  - replace (0 + b) with b by lia. change (Prim2SF (float_of_Z 0)) with (S754_zero false).
    destruct b as [|b|b]; [done| |lia].
    rewrite float_of_Z_pos by lia. done.
  - rewrite Z.add_0_r, float_of_Z_pos by lia. done.
  - change (Z.pos a + Z.pos b) with (Z.pos (a + b)).
    rewrite !float_of_Z_pos by lia. by apply SFadd_canonical.
Qed.

Lemma float_of_Z_truthy (a : Z) : 0 < a < 2 ^ 53 → float_truthy (float_of_Z a) = true.
Proof.
  intros Ha. destruct a as [|a|a]; try lia.
  unfold float_truthy, PrimFloat.is_nan. rewrite !FloatAxioms.eqb_spec, float_of_Z_pos by lia.
  change (Prim2SF 0) with (S754_zero false). unfold canonical, SFeqb, SFcompare.
  rewrite Z.compare_refl, Pos.compare_cont_refl. done.
Qed.

(** [x || 0] and [+] on such numbers. *)
Lemma or_zero_whole (a : Z) : 0 ≤ a < 2 ^ 53 → or_zero (float_of_Z a) = float_of_Z a.
Proof.
  intros Ha. unfold or_zero. simpl.
  destruct (decide (a = 0)) as [->|]; [done|]. by rewrite float_of_Z_truthy by lia.
Qed.

Lemma num_add_whole (a b : Z) :
  0 ≤ a → 0 ≤ b → a + b < 2 ^ 53 →
  num_add (float_of_Z a) (float_of_Z b) = float_of_Z (a + b).
Proof. apply float_add_exact. Qed.

End binary64.

(** ** Whole amounts *)

Section whole.
Local Open Scope Z_scope.
Variable amount : float → Z.
Implicit Types (leads : list (Lead.t float)) (lead : Lead.t float).

Lemma total_nonneg leads : Forall (whole_amount amount) leads → 0 ≤ total amount leads.
Proof. induction 1 as [|lead leads [??] _ IH]; simpl; lia. Qed.

Lemma total_filter (P : Lead.t float → Prop) `{!∀ lead, Decision (P lead)} leads :
  total amount (filter P leads) + total amount (filter (λ lead, ¬ P lead) leads)
  = total amount leads.
Proof.
  induction leads as [|lead leads IH]; [done|]. rewrite !filter_cons.
  destruct (decide (P lead)); destruct (decide (¬ P lead)); try done; simpl; lia.
Qed.

Lemma whole_amounts_filter (P : Lead.t float → Prop) `{!∀ lead, Decision (P lead)} leads :
  whole_amounts amount leads → whole_amounts amount (filter P leads).
Proof.
  intros [Hall Hlt]. split; [by apply Forall_filter|].
  pose proof (total_filter P leads).
  pose proof (total_nonneg (filter (λ lead, ¬ P lead) leads) (Forall_filter _ _ _ Hall)).
  lia.
Qed.

(** A sum of whole amounts, as [reduce] computes it, is exact. *)
Lemma fold_sum_whole leads (a : Z) :
  Forall (whole_amount amount) leads → 0 ≤ a → a + total amount leads < 2 ^ 53 →
  fold_left (λ sum lead, num_add sum (Lead.value lead)) leads (float_of_Z a) =
  float_of_Z (a + total amount leads).
Proof.
  intros Hall. revert a. induction Hall as [|lead leads [Hpos Hval] Hall IH]; intros a Ha Hlt.
  - simpl. by rewrite Z.add_0_r.
  - pose proof (total_nonneg leads Hall). simpl in *.
    set (z := amount (Lead.value lead)) in *.
    rewrite <-Hval, num_add_whole, IH by lia. f_equal. lia.
Qed.

Lemma accumulated_whole leads (a : Z) :
  Forall (whole_amount amount) leads → 0 ≤ a → a + total amount leads < 2 ^ 53 →
  fold_left (λ acc v, num_add (or_zero acc) v) (Lead.value <$> leads) (float_of_Z a) =
  float_of_Z (a + total amount leads).
Proof.
  intros Hall. revert a. induction Hall as [|lead leads [Hpos Hval] Hall IH]; intros a Ha Hlt.
  - simpl. by rewrite Z.add_0_r.
  - pose proof (total_nonneg leads Hall). simpl in *.
    set (z := amount (Lead.value lead)) in *.
    rewrite or_zero_whole, <-Hval, num_add_whole, IH by lia. f_equal. lia.
Qed.

(** *** The totals per status *)

Implicit Types (acc : gmap string Z).

Lemma map_sum_nonneg acc : nonneg acc → 0 ≤ map_sum Z.add 0 acc.
Proof.
  unfold map_sum. apply (map_fold_weak_ind (λ r m, nonneg m → 0 ≤ r)); [done|].
  intros key x m r Hkey IH Hm.
  assert (0 ≤ x) by (apply (Hm key); by rewrite lookup_insert_eq).
  assert (0 ≤ r); [|lia].
  apply IH. intros key' x' Hx'. apply (Hm key').
  rewrite lookup_insert_ne; [done|]. by intros <-; rewrite Hkey in Hx'.
Qed.

Lemma map_sum_entry acc key x :
  nonneg acc → acc !! key = Some x → 0 ≤ x ≤ map_sum Z.add 0 acc.
Proof.
  intros Hacc Hkey. split; [by apply (Hacc key)|].
  rewrite (map_sum_lookup Z.add 0 Z.add_assoc Z.add_comm acc key x Hkey).
  assert (0 ≤ map_sum Z.add 0 (delete key acc)); [|lia].
  apply map_sum_nonneg. intros key' x' [_ Hx']%lookup_delete_Some. by apply (Hacc key').
Qed.

Lemma amount_step_sum acc lead :
  map_sum Z.add 0 (amount_step amount acc lead) =
  map_sum Z.add 0 acc + amount (Lead.value lead).
Proof.
  unfold amount_step.
  destruct (acc !! Lead.key (Lead.status lead)) as [old|] eqn:Hkey; simpl.
  - by apply (map_sum_update Z.add 0 Z.add_assoc Z.add_comm).
  - by rewrite (map_sum_insert Z.add 0 Z.add_assoc Z.add_comm).
Qed.

Lemma amount_step_nonneg acc lead :
  nonneg acc → whole_amount amount lead → nonneg (amount_step amount acc lead).
Proof.
  intros Hacc [Hpos _] key x. unfold amount_step.
  destruct (decide (key = Lead.key (Lead.status lead))) as [->|Hne].
  - rewrite lookup_insert_eq. intros [= <-].
    destruct (acc !! Lead.key (Lead.status lead)) as [old|] eqn:Hkey; simpl; [|lia].
    pose proof (Hacc _ _ Hkey). lia.
  - rewrite lookup_insert_ne by done. apply Hacc.
Qed.

(** One step of the reducer of [valueByStatus] is the step on integers. *)
Lemma value_step_whole acc lead :
  nonneg acc → whole_amount amount lead →
  map_sum Z.add 0 acc + amount (Lead.value lead) < 2 ^ 53 →
  CRMContext.value_step (float_of_Z <$> acc) lead =
  float_of_Z <$> amount_step amount acc lead.
Proof.
  intros Hacc [Hpos Hval] Hlt.
  unfold CRMContext.value_step, CRMContext.value_or_zero, amount_step.
  set (z := amount (Lead.value lead)) in *.
  rewrite fmap_insert, lookup_fmap. f_equal.
  destruct (acc !! Lead.key (Lead.status lead)) as [old|] eqn:Hkey; simpl.
  - pose proof (map_sum_entry acc _ old Hacc Hkey).
    by rewrite or_zero_whole, <-Hval, num_add_whole by lia.
  - pose proof (map_sum_nonneg acc Hacc). rewrite <-Hval. apply (float_add_exact 0 z); lia.
Qed.

Lemma value_fold_whole leads acc :
  nonneg acc → Forall (whole_amount amount) leads →
  map_sum Z.add 0 acc + total amount leads < 2 ^ 53 →
  fold_left CRMContext.value_step leads (float_of_Z <$> acc) =
  float_of_Z <$> fold_left (amount_step amount) leads acc.
Proof.
  intros Hacc Hall. revert acc Hacc.
  induction Hall as [|lead leads Hlead Hall IH]; intros acc Hacc Hlt; [done|].
  pose proof (total_nonneg leads Hall). simpl in *.
  rewrite value_step_whole by (done || lia).
  apply IH; [by apply amount_step_nonneg|]. rewrite amount_step_sum. lia.
Qed.

Lemma amount_fold_sum leads acc :
  map_sum Z.add 0 (fold_left (amount_step amount) leads acc) =
  map_sum Z.add 0 acc + total amount leads.
Proof.
  revert acc. induction leads as [|lead leads IH]; intros acc; simpl; [lia|].
  rewrite IH, amount_step_sum. lia.
Qed.

Lemma amount_fold_nonneg leads acc :
  nonneg acc → Forall (whole_amount amount) leads → nonneg (fold_left (amount_step amount) leads acc).
Proof.
  intros Hacc Hall. revert acc Hacc.
  induction Hall as [|lead leads Hlead Hall IH]; intros acc Hacc; [done|].
  simpl. by apply IH, amount_step_nonneg.
Qed.

(** The entries of a map of whole amounts add up exactly, in whatever
    order the map is traversed. *)
Lemma sum_values_whole acc :
  nonneg acc → map_sum Z.add 0 acc < 2 ^ 53 →
  sum_values (float_of_Z <$> acc) = float_of_Z (map_sum Z.add 0 acc).
Proof.
  unfold sum_values, map_sum. rewrite map_fold_fmap.
  induction acc as [|key x acc Hkey Hfirst IH] using map_first_key_ind.
  - by rewrite !map_fold_empty.
  - intros Hacc. rewrite !map_fold_insert_first_key by done. intros Hlt.
    assert (Hacc' : nonneg acc).
    { intros key' x' Hx'. apply (Hacc key').
      rewrite lookup_insert_ne; [done|]. by intros <-; rewrite Hkey in Hx'. }
    pose proof (map_sum_nonneg acc Hacc') as Hsum. unfold map_sum in Hsum.
    assert (0 ≤ x) by (apply (Hacc key); by rewrite lookup_insert_eq).
    rewrite IH by (done || lia). apply float_add_exact; lia.
Qed.

(** So do the numbers of non-negative integers, in whatever order. *)
Lemma fold_numbers_whole (zs : list Z) (a : Z) :
  Forall (λ z, 0 ≤ z) zs → 0 ≤ a → a + foldr Z.add 0 zs < 2 ^ 53 →
  fold_left num_add (float_of_Z <$> zs) (float_of_Z a) =
  float_of_Z (a + foldr Z.add 0 zs).
Proof.
  intros Hall. revert a. induction Hall as [|z zs Hz Hall IH]; intros a Ha Hlt.
  - simpl. by rewrite Z.add_0_r.
  - assert (0 ≤ foldr Z.add 0 zs) by (clear -Hall; induction Hall; simpl; lia).
    simpl in *. rewrite num_add_whole, IH by lia. f_equal. lia.
Qed.

Lemma map_sum_values acc : map_sum Z.add 0 acc = foldr Z.add 0 (map_to_list acc).*2.
Proof.
  unfold map_sum. rewrite map_fold_foldr.
  induction (map_to_list acc) as [|[key x] l IH]; simpl; [done|]. rewrite IH. apply Z.add_comm.
Qed.

Lemma values_whole_any_order acc (values : list float) :
  nonneg acc → map_sum Z.add 0 acc < 2 ^ 53 →
  values ≡ₚ (map_to_list (float_of_Z <$> acc)).*2 →
  fold_left num_add values (float_of_Z 0) = float_of_Z (map_sum Z.add 0 acc).
Proof.
  intros Hacc Hlt. rewrite map_to_list_fmap, <-list_fmap_compose.
  rewrite (list_fmap_ext _ (float_of_Z ∘ snd) (map_to_list acc)) by (by intros _ [??] _).
  rewrite list_fmap_compose.
  intros (zs & -> & Hperm)%Permutation_map_inv.
  assert (Hsum : foldr Z.add 0 zs = map_sum Z.add 0 acc).
  { rewrite map_sum_values. clear -Hperm. induction Hperm; simpl; lia. }
  change (map float_of_Z zs) with (float_of_Z <$> zs).
  rewrite fold_numbers_whole; [by rewrite Hsum| |done|lia].
  rewrite <-Hperm. apply Forall_fmap, Forall_forall. intros [key x] Hx.
  apply elem_of_map_to_list in Hx. by apply (Hacc key).
Qed.

End whole.

Section dashboard.
Context `{Number num}.
Import CRMContext.
Implicit Types (view : CRM num) (leads : list (Lead.t num)).

Lemma sum_counts_step (acc : gmap string nat) (lead : Lead.t num) :
  sum_counts (count_step acc lead) = sum_counts acc + 1.
Proof.
  unfold count_step, count_or_zero, sum_counts.
  destruct (acc !! Lead.key (Lead.status lead)) as [old|] eqn:Hk; simpl.
  - apply (map_sum_update Nat.add 0 Nat.add_assoc Nat.add_comm); done.
  - rewrite (map_sum_insert Nat.add 0 Nat.add_assoc Nat.add_comm); done.
Qed.

Lemma sum_counts_fold leads (acc : gmap string nat) :
  sum_counts (fold_left count_step leads acc) = sum_counts acc + length leads.
Proof.
  revert acc. induction leads as [|lead leads IH]; intros acc; simpl.
  - lia.
  - rewrite IH, sum_counts_step. lia.
Qed.

End dashboard.

(** C8, amended. The aggregates of [getDashboardStats] are consistent:
    [totalCustomers] and [totalLeads] are the lengths of the two lists,
    [totalValue] is the sum of the values of the leads from left to right,
    and the counts of [leadsByStatus] sum to [totalLeads]. When the values
    are whole amounts (non-negative integers that total less than 2^53), no
    addition rounds: the sums of [valueByStatus] then sum to [totalValue],
    in whatever order they are added, and [totalValue] is the number of the
    integer total. *)
Theorem getDashboardStats_consistent (view : CRMContext.CRM float) :
  let stats := CRMContext.getDashboardStats view in
  CRMContext.totalCustomers stats = length (CRMContext.customers view) ∧
  CRMContext.totalLeads stats = length (CRMContext.leads view) ∧
  CRMContext.totalValue stats = sum_of_values (CRMContext.leads view) ∧
  sum_counts (CRMContext.leadsByStatus stats) = CRMContext.totalLeads stats ∧
  (∀ amount, whole_amounts amount (CRMContext.leads view) →
     sum_values (CRMContext.valueByStatus stats) = CRMContext.totalValue stats ∧
     (∀ values, values ≡ₚ (map_to_list (CRMContext.valueByStatus stats)).*2 →
                fold_left num_add values 0%float = CRMContext.totalValue stats) ∧
     CRMContext.totalValue stats = float_of_Z (total amount (CRMContext.leads view))).
Proof.
  intros stats. subst stats. unfold CRMContext.getDashboardStats.
  cbn [CRMContext.totalCustomers CRMContext.totalLeads CRMContext.totalValue
       CRMContext.leadsByStatus CRMContext.valueByStatus].
  split_and!; [done|done|..].
  - unfold sum_of_values. by rewrite fold_left_fmap.
  - rewrite sum_counts_fold. unfold sum_counts, map_sum. by rewrite map_fold_empty.
  - intros amount [Hall Hlt].
    assert (Hsum0 : map_sum Z.add 0%Z (∅ : gmap string Z) = 0%Z)
      by (unfold map_sum; by rewrite map_fold_empty).
    change (num_of_Z 0) with (float_of_Z 0).
    rewrite (fold_sum_whole amount _ 0%Z) by done.
    rewrite <-(fmap_empty float_of_Z), (value_fold_whole amount)
      by (done || by rewrite Hsum0).
    assert (Hnonneg : nonneg (fold_left (amount_step amount) (CRMContext.leads view) ∅))
      by (by apply amount_fold_nonneg).
    assert (Hsum : map_sum Z.add 0%Z (fold_left (amount_step amount) (CRMContext.leads view) ∅)
                   = total amount (CRMContext.leads view))
      by (by rewrite amount_fold_sum, Hsum0).
    split_and!; [| |done].
    + rewrite sum_values_whole; [by rewrite Hsum|done|by rewrite Hsum].
    + intros values Hvalues.
      change (fold_left num_add values 0%float)
        with (fold_left num_add values (float_of_Z 0)).
      rewrite (values_whole_any_order _ values Hnonneg); [by rewrite Hsum|by rewrite Hsum|done].
Qed.

(** The values of the mock data are whole amounts, which total 165000. *)
Lemma getDashboardStats_consistent_witness :
  let view := CRMContext.loaded (num := float)
                (Some (User.mk "1" "Ada" "ada@crm.test" User.Admin "2024-03-01T08:00:00Z")) in
  stats_consistent view (CRMContext.getDashboardStats view) ∧
  CRMContext.totalValue (CRMContext.getDashboardStats view) = 165000%float.
Proof.
  intros view.
  destruct (getDashboardStats_consistent view) as (Hc & Hl & Hv & Hn & Hs).
  destruct (Hs (λ v, if PrimFloat.eqb v 50000 then 50000
                     else if PrimFloat.eqb v 25000 then 25000
                     else if PrimFloat.eqb v 75000 then 75000 else 15000)%Z)
    as (Hsum & _ & Htotal).
  - split; [|by vm_compute]. repeat constructor; by vm_compute.
  - split; [|by rewrite Htotal]. by split_and!.
Defined.

(** A decimal literal denotes the nearest binary64 number, as it does in
    JavaScript; the warning about it says no more. *)
Set Warnings "-inexact-float".

(** C8 as stated fails on floating-point numbers, whose addition is not
    associative: for leads of 19.99 (New), 5.10 (Contacted) and 4.95 (New),
    [totalValue] is 30.039999999999996 while [valueByStatus] holds
    24.939999999999998 and 5.1, which sum to 30.04 in either order. *)
Lemma getDashboardStats_counterexample :
  ∃ view : CRMContext.CRM float,
    let stats := CRMContext.getDashboardStats view in
    ¬ stats_consistent view stats ∧
    ∀ values,
      values ≡ₚ (map_to_list (CRMContext.valueByStatus stats)).*2 →
      fold_left num_add values 0%float ≠ CRMContext.totalValue stats.
Proof.
  exists (CRMContext.mk []
            [Lead.mk "1" "1" "Licence" None Lead.New 19.99%float "2024-03-01T09:00:00Z";
             Lead.mk "2" "1" "Support" None Lead.Contacted 5.10%float "2024-03-01T09:05:00Z";
             Lead.mk "3" "2" "Training" None Lead.New 4.95%float "2024-03-01T09:10:00Z"]
            false []).
  split.
  - intros (_ & _ & _ & _ & Hsum). vm_compute in Hsum. discriminate Hsum.
  - intros values Hperm Hsum. vm_compute in Hperm.
    apply Permutation_sym, Permutation_length_2_inv in Hperm as [-> | ->];
      vm_compute in Hsum; discriminate Hsum.
Qed.

(* ===================================================================== *)
(** * Part IV. More of the code                                            *)
(* ===================================================================== *)

(** ** The authentication context: storage, reload, requests *)

Lemma or_else_truthy (a b : option string) :
  AuthContext.opt_truthy a = true → AuthContext.or_else a b = a.
Proof. destruct a as [x|]; simpl; [|done]. by intros ->. Qed.

Lemma or_else_falsy (a b : option string) :
  AuthContext.opt_truthy a = false → AuthContext.or_else a b = b.
Proof. destruct a as [x|]; simpl; [|done]. by intros ->. Qed.

Lemma opt_truthy_Some (x : string) : x ≠ "" → AuthContext.opt_truthy (Some x) = true.
Proof. intros Hx. simpl. by apply str_truthy_true. Qed.

Lemma opt_truthy_or_else (a b : option string) :
  AuthContext.opt_truthy (AuthContext.or_else a b) =
  AuthContext.opt_truthy a || AuthContext.opt_truthy b.
Proof.
  destruct a as [x|]; simpl; [|done].
  destruct (str_truthy x) eqn:Hx; simpl; by rewrite ?Hx.
Qed.

Section auth_storage.
Import AuthContext.
Variable JSON_stringify : User.t → string.
Variable JSON_parse : string → option User.t.
Implicit Types (s : Auth) (data : LoginBody) (local session : gmap string string).

(** The storage areas after a login: the two keys are set in one of them. *)
Lemma login_storage email password (rememberMe : option bool) data now s :
  let s' := (login JSON_stringify email password rememberMe (Resolved data) now s).1 in
  if default false rememberMe
  then localStorage s' =
         <["crm_user" := JSON_stringify (userOf data now)]>
           (<["crm_token" := body_token data]> (localStorage s)) ∧
       sessionStorage s' = sessionStorage s
  else sessionStorage s' =
         <["crm_user" := JSON_stringify (userOf data now)]>
           (<["crm_token" := body_token data]> (sessionStorage s)) ∧
       localStorage s' = localStorage s.
Proof. by destruct rememberMe as [[|]|]. Qed.

(** What the effect of a freshly mounted provider does with what it finds
    in the storage. *)
Lemma restore_found local session (t str : string) (u : User.t) :
  storedToken local session = Some t → t ≠ "" →
  or_else (getItem "crm_user" local) (getItem "crm_user" session) = Some str → str ≠ "" →
  JSON_parse str = Some u →
  restore JSON_parse (mounted local session) =
    Some (mk (Some u) (Some t) false local session []).
Proof.
  intros Ht Ht' Hstr Hstr' Hparse.
  unfold restore, readPersistedAuth.
  change (localStorage (mounted local session)) with local.
  change (sessionStorage (mounted local session)) with session.
  rewrite Ht, Hstr, !opt_truthy_Some by done.
  change (default "" (Some str)) with str. rewrite Hparse.
  by rewrite opt_truthy_Some.
Qed.

Lemma restore_nothing local session :
  storedToken local session = None →
  or_else (getItem "crm_user" local) (getItem "crm_user" session) = None →
  readPersistedAuth JSON_parse local session = Some (None, None) ∧
  restore JSON_parse (mounted local session) = Some (mk None None false local session []).
Proof.
  intros Ht Hstr. unfold restore, readPersistedAuth.
  change (localStorage (mounted local session)) with local.
  change (sessionStorage (mounted local session)) with session.
  by rewrite Ht, Hstr.
Qed.

(** X1. A reload after a login finds the session again: the effect of a
    freshly mounted provider over the storage that the login left restores
    the token of the API and the user that [JSON.parse] reads back,
    provided the login was remembered or [localStorage] holds no older
    token and user. *)
Theorem restore_after_login email password (rememberMe : option bool) data now s u :
  body_token data ≠ "" →
  JSON_stringify (userOf data now) ≠ "" →
  JSON_parse (JSON_stringify (userOf data now)) = Some u →
  default false rememberMe = true ∨
    (opt_truthy (localStorage s !! "crm_token") = false ∧
     opt_truthy (localStorage s !! "crm_user") = false) →
  let s' := (login JSON_stringify email password rememberMe (Resolved data) now s).1 in
  restore JSON_parse (mounted (localStorage s') (sessionStorage s')) =
    Some (mk (Some u) (Some (body_token data)) false
             (localStorage s') (sessionStorage s') []).
Proof.
  intros Htoken Huser Hparse Hfirst s'.
  pose proof (login_storage email password rememberMe data now s) as Hst.
  fold s' in Hst. clearbody s'.
  apply restore_found with (str := JSON_stringify (userOf data now)); try done.
  - unfold storedToken, getItem. destruct (default false rememberMe).
    + destruct Hst as [-> _]. rewrite lookup_insert_ne, lookup_insert_eq by done.
      by apply or_else_truthy, opt_truthy_Some.
    + destruct Hfirst as [?|[Hlt _]]; [done|]. destruct Hst as [-> ->].
      rewrite or_else_falsy by done. by rewrite lookup_insert_ne, lookup_insert_eq.
  - unfold getItem. destruct (default false rememberMe).
    + destruct Hst as [-> _]. rewrite lookup_insert_eq.
      by apply or_else_truthy, opt_truthy_Some.
    + destruct Hfirst as [?|[_ Hlu]]; [done|]. destruct Hst as [-> ->].
      rewrite or_else_falsy by done. by rewrite lookup_insert_eq.
Qed.

(** X2. [localStorage] is read first. A login that is not remembered, made
    while [localStorage] holds the token and the user of an older
    remembered session (of another tab, say), sets the new token in the
    provider, but requests go out with the older token, and a reload
    restores the older session. *)
Theorem older_session_wins email password data now s (t0 str0 : string) (u0 : User.t)
    (optionsHeaders : gmap string string) :
  localStorage s !! "crm_token" = Some t0 → t0 ≠ "" →
  localStorage s !! "crm_user" = Some str0 → str0 ≠ "" →
  JSON_parse str0 = Some u0 →
  let s' := (login JSON_stringify email password None (Resolved data) now s).1 in
  token s' = Some (body_token data) ∧
  storedToken (localStorage s') (sessionStorage s') = Some t0 ∧
  requestHeaders optionsHeaders (localStorage s') (sessionStorage s') !! "Authorization"
    = Some ("Bearer " +:+ t0) ∧
  restore JSON_parse (mounted (localStorage s') (sessionStorage s')) =
    Some (mk (Some u0) (Some t0) false (localStorage s') (sessionStorage s') []).
Proof.
  intros Ht0 Ht0' Hu0 Hu0' Hparse s'.
  assert (Hmem : token s' = Some (body_token data)) by done.
  assert (Hlocal : localStorage s' = localStorage s) by done.
  clearbody s'.
  assert (Htok : storedToken (localStorage s') (sessionStorage s') = Some t0).
  { unfold storedToken, getItem. rewrite Hlocal, Ht0.
    by apply or_else_truthy, opt_truthy_Some. }
  split_and!; [done|done|..].
  - unfold requestHeaders. rewrite Htok, opt_truthy_Some by done. simpl.
    by rewrite lookup_insert_eq.
  - apply restore_found with (str := str0); try done.
    unfold getItem. rewrite Hlocal, Hu0. by apply or_else_truthy, opt_truthy_Some.
Qed.

(** X3. After [logout()] nothing of the session is left to find: no token
    is read from the storage, a reload restores no user, and requests carry
    no [Authorization] header but the one their caller gives. *)
Theorem logout_forgets s (optionsHeaders : gmap string string) :
  let s' := logout s in
  storedToken (localStorage s') (sessionStorage s') = None ∧
  readPersistedAuth JSON_parse (localStorage s') (sessionStorage s') = Some (None, None) ∧
  restore JSON_parse (mounted (localStorage s') (sessionStorage s')) =
    Some (mk None None false (localStorage s') (sessionStorage s') []) ∧
  requestHeaders optionsHeaders (localStorage s') (sessionStorage s') !! "Authorization"
    = optionsHeaders !! "Authorization".
Proof.
  intros s'.
  assert (Hl : localStorage s' = delete "crm_user" (delete "crm_token" (localStorage s)))
    by done.
  assert (Hs : sessionStorage s' = delete "crm_user" (delete "crm_token" (sessionStorage s)))
    by done.
  clearbody s'.
  assert (Htok : storedToken (localStorage s') (sessionStorage s') = None).
  { unfold storedToken, getItem. rewrite Hl, Hs.
    rewrite !(lookup_delete_ne _ "crm_user" "crm_token") by done.
    by rewrite !lookup_delete_eq. }
  assert (Husr : or_else (getItem "crm_user" (localStorage s'))
                         (getItem "crm_user" (sessionStorage s')) = None).
  { unfold getItem. rewrite Hl, Hs. by rewrite !lookup_delete_eq. }
  destruct (restore_nothing _ _ Htok Husr) as [Hread Hrestore].
  split_and!; [done|done|done|].
  unfold requestHeaders. rewrite Htok. simpl.
  rewrite lookup_union, lookup_singleton_ne by done.
  by destruct (optionsHeaders !! "Authorization").
Qed.

End auth_storage.

Lemma restore_after_login_witness :
  let stringify := λ u : User.t, User._id u +:+ ":" +:+ User.email u in
  let ada := User.mk "7" "Ada" "ada@crm.test" User.Admin "2024-03-01T08:00:00Z" in
  let parse := λ str : string, if bool_decide (str = "7:ada@crm.test") then Some ada else None in
  let data := {| AuthContext.body_token := "tok-1";
                 AuthContext.body_user :=
                   {| AuthContext.api_id := "7"; AuthContext.api_name := "Ada";
                      AuthContext.api_email := "ada@crm.test";
                      AuthContext.api_role := User.Admin |} |} in
  let s' := (AuthContext.login stringify "ada@crm.test" "secret1" None
               (AuthContext.Resolved data) "2024-03-01T08:00:00Z"
               (AuthContext.mounted ∅ ∅)).1 in
  AuthContext.restore parse
    (AuthContext.mounted (AuthContext.localStorage s') (AuthContext.sessionStorage s')) =
  Some (AuthContext.mk (Some ada) (Some "tok-1") false
          (AuthContext.localStorage s') (AuthContext.sessionStorage s') []).
Proof.
  intros stringify ada parse data s'.
  apply (restore_after_login stringify parse "ada@crm.test" "secret1" None data
           "2024-03-01T08:00:00Z" (AuthContext.mounted ∅ ∅) ada);
    [done | done | reflexivity | by right].
Defined.

Lemma older_session_wins_witness :
  let stringify := λ u : User.t, User._id u +:+ ":" +:+ User.email u in
  let ada := User.mk "7" "Ada" "ada@crm.test" User.Admin "2024-03-01T08:00:00Z" in
  let parse := λ str : string, if bool_decide (str = "7:ada@crm.test") then Some ada else None in
  let data := {| AuthContext.body_token := "tok-2";
                 AuthContext.body_user :=
                   {| AuthContext.api_id := "8"; AuthContext.api_name := "Bob";
                      AuthContext.api_email := "bob@crm.test";
                      AuthContext.api_role := User.User |} |} in
  let local : gmap string string :=
    <["crm_user" := "7:ada@crm.test"]> (<["crm_token" := "tok-1"]> ∅) in
  let s' := (AuthContext.login stringify "bob@crm.test" "secret2" None
               (AuthContext.Resolved data) "2024-03-02T08:00:00Z"
               (AuthContext.mounted local ∅)).1 in
  AuthContext.token s' = Some "tok-2" ∧
  AuthContext.storedToken (AuthContext.localStorage s') (AuthContext.sessionStorage s')
    = Some "tok-1".
Proof.
  intros stringify ada parse data local s'.
  destruct (older_session_wins stringify parse "bob@crm.test" "secret2" data
              "2024-03-02T08:00:00Z" (AuthContext.mounted local ∅)
              "tok-1" "7:ada@crm.test" ada ∅) as (Hmem & Hstored & _); done.
Defined.

Section auth_requests.
Import AuthContext.
Variable JSON_stringify : User.t → string.
Implicit Types (s : Auth) (data : LoginBody) (local session : gmap string string).

(** X4. A registration that succeeds leaves the user, the token and the
    storage as a remembered login does that gets the same response: it is
    always kept in [localStorage]. *)
Theorem register_remembers name email password (registered : unit)
    (response : Fetch LoginBody) now s :
  let r := register JSON_stringify name email password (Resolved registered) response now s in
  let l := login JSON_stringify email password (Some true) response now s in
  r.2 = l.2 ∧
  user r.1 = user l.1 ∧
  token r.1 = token l.1 ∧
  loading r.1 = loading l.1 ∧
  localStorage r.1 = localStorage l.1 ∧
  sessionStorage r.1 = sessionStorage l.1.
Proof. by destruct response. Qed.

(** X5. A login whose request is rejected touches neither the user, the
    token nor the storage: it shows the message of the error in a
    destructive toast, ends with [loading] false, and is rejected with the
    same message. So does a registration whose first request is rejected,
    whatever the second would give, and one whose second request is
    rejected after the first went through. *)
Theorem failed_auth_changes_nothing name email password (rememberMe : option bool)
    (registered : unit) (response : Fetch LoginBody) now s message :
  let unchanged (title : string) (r : Auth * (string + unit)) :=
    r.2 = inl message ∧
    user r.1 = user s ∧ token r.1 = token s ∧ loading r.1 = false ∧
    localStorage r.1 = localStorage s ∧ sessionStorage r.1 = sessionStorage s ∧
    toasts r.1 = toasts s ++ [{| toast_title := title;
                                 toast_description := message;
                                 toast_variant := Some "destructive" |}] in
  unchanged "Login failed"
    (login JSON_stringify email password rememberMe (Rejected message) now s) ∧
  unchanged "Registration failed"
    (register JSON_stringify name email password (Rejected message) response now s) ∧
  unchanged "Registration failed"
    (register JSON_stringify name email password (Resolved registered)
              (Rejected message) now s).
Proof. done. Qed.

(** X6. [apiFetch] returns the parsed body of a response that is ok, and
    throws for every response that is not: an [Error] whose message is the
    [error] of the body, converted to a string, when the body is JSON with a
    truthy [error], and ["Request failed: "] with the status otherwise. The
    message is the [error] itself when that is a non-empty string; it is
    empty when [error] is the empty array; and an [error] that cannot be
    converted, an object with a member [toString], makes it a [TypeError]. *)
Theorem apiFetch_rejects (Number_toString : float → string) (res : Response) :
  let fetched := apiFetch Number_toString res in
  let error := res_json res ≫= error_of in
  (res_ok res = true →
     fetched = match res_json res with
               | Some body => Returns body
               | None => Throws SyntaxError
               end) ∧
  (res_ok res = false →
     (∃ thrown, fetched = Throws thrown ∧ thrown ≠ SyntaxError) ∧
     (∀ e, error = Some e → truthy e = true →
        fetched = match ToString Number_toString e with
                  | Some message => Throws (Error message)
                  | None => Throws TypeError
                  end) ∧
     ((∀ e, error = Some e → truthy e = false) →
        fetched = Throws (Error ("Request failed: " +:+ String_of_nat (res_status res)))) ∧
     (∀ message, error = Some (JString message) → message ≠ "" →
        fetched = Throws (Error message)) ∧
     (error = Some (JArray []) → fetched = Throws (Error "")) ∧
     (∀ members, error = Some (JObject members) → is_Some (get "toString" members) →
        fetched = Throws TypeError)).
Proof.
  intros fetched error. subst fetched error. unfold apiFetch.
  split; intros ->; [done|]. cbn [negb].
  destruct (res_json res) as [body|]; cbn [mbind option_bind].
  - destruct (error_of body) as [e|].
    + assert (Hcase : ∀ e', Some e = Some e' → truthy e' = true →
                 match ToString Number_toString (if truthy e then e else
                         JString ("Request failed: " +:+ String_of_nat (res_status res))) with
                 | Some message => Throws (Error message)
                 | None => Throws TypeError
                 end =
                 match ToString Number_toString e' with
                 | Some message => Throws (Error message)
                 | None => Throws TypeError
                 end).
      { intros e' [= <-] He. by rewrite He. }
      split_and!.
      * destruct (truthy e); [|by eexists]. destruct (ToString _ e); by eexists.
      * done.
      * intros Hfalsy. by rewrite (Hfalsy e).
      * intros message [= ->] Hmessage. rewrite (Hcase _ eq_refl); [done|].
        by apply str_truthy_true.
      * intros [= ->]. by rewrite (Hcase _ eq_refl).
      * intros members [= ->] [v Hv]. rewrite (Hcase _ eq_refl) by done. simpl. by rewrite Hv.
    + split_and!; try done. by eexists.
  - split_and!; try done. by eexists.
Qed.

(** X7. The headers of a request. A non-empty token in [localStorage] is
    sent as [Authorization: Bearer], before one in [sessionStorage], and in
    place of an [Authorization] header of the caller; without a stored
    token the caller's header stays. The content type is the caller's, or
    [application/json]. *)
Theorem requestHeaders_spec (optionsHeaders local session : gmap string string) :
  let headers := requestHeaders optionsHeaders local session in
  (∀ t, local !! "crm_token" = Some t → t ≠ "" →
        headers !! "Authorization" = Some ("Bearer " +:+ t)) ∧
  (∀ t, opt_truthy (local !! "crm_token") = false →
        session !! "crm_token" = Some t → t ≠ "" →
        headers !! "Authorization" = Some ("Bearer " +:+ t)) ∧
  (opt_truthy (local !! "crm_token") = false →
   opt_truthy (session !! "crm_token") = false →
   headers !! "Authorization" = optionsHeaders !! "Authorization") ∧
  headers !! "Content-Type" =
    Some (default "application/json" (optionsHeaders !! "Content-Type")) ∧
  (∀ name, name ≠ "Authorization" → name ≠ "Content-Type" →
           headers !! name = optionsHeaders !! name).
Proof.
  intros headers. subst headers. unfold requestHeaders, storedToken, getItem.
  assert (Hbase : ∀ name, (optionsHeaders ∪ {["Content-Type" := "application/json"]}) !! name
                  = if decide (name = "Content-Type")
                    then Some (default "application/json" (optionsHeaders !! "Content-Type"))
                    else optionsHeaders !! name).
  { intros name. rewrite lookup_union. destruct (decide (name = "Content-Type")) as [->|Hne].
    - rewrite lookup_singleton_eq. by destruct (optionsHeaders !! "Content-Type").
    - rewrite lookup_singleton_ne by done. by destruct (optionsHeaders !! name). }
  split_and!.
  - intros t Ht Hne. rewrite Ht, (or_else_truthy (Some t)) by by apply opt_truthy_Some.
    rewrite opt_truthy_Some by done. apply lookup_insert_eq.
  - intros t Hl Ht Hne. rewrite or_else_falsy, Ht by done.
    rewrite opt_truthy_Some by done. apply lookup_insert_eq.
  - intros Hl Hs. rewrite or_else_falsy, Hs by done. by rewrite Hbase.
  - destruct (opt_truthy _); [rewrite lookup_insert_ne by done|]; by rewrite Hbase.
  - intros name Hna Hnc.
    destruct (opt_truthy _); [rewrite lookup_insert_ne by done|];
      rewrite Hbase; by destruct (decide _).
Qed.

End auth_requests.

(** ** The CRM context: reads after writes *)

Section by_key.
Context {A : Type} (key : A → string).
Implicit Types (l : list A) (id : string).

Lemma find_removed id l :
  List.find (λ x, bool_decide (key x = id)) (filter (λ x, key x ≠ id) l) = None.
Proof.
  induction l as [|x l IH]; [done|]. rewrite filter_cons.
  destruct (decide (key x ≠ id)) as [Hx|Hx]; [|done].
  simpl. by rewrite bool_decide_eq_false_2.
Qed.

Lemma find_other id id' l :
  id' ≠ id →
  List.find (λ x, bool_decide (key x = id')) (filter (λ x, key x ≠ id) l) =
  List.find (λ x, bool_decide (key x = id')) l.
Proof.
  intros Hne. induction l as [|x l IH]; [done|]. rewrite filter_cons.
  destruct (decide (key x ≠ id)) as [Hx|Hx]; simpl.
  - by rewrite IH.
  - apply dec_stable in Hx. rewrite bool_decide_eq_false_2 by congruence. done.
Qed.

Lemma filter_removed id l :
  filter (λ x, key x = id) (filter (λ x, key x ≠ id) l) = [].
Proof.
  induction l as [|x l IH]; [done|]. rewrite filter_cons.
  destruct (decide (key x ≠ id)) as [Hx|Hx]; [|done].
  rewrite filter_cons. by destruct (decide (key x = id)).
Qed.

Lemma filter_other id id' l :
  id' ≠ id →
  filter (λ x, key x = id') (filter (λ x, key x ≠ id) l) = filter (λ x, key x = id') l.
Proof.
  intros Hne. induction l as [|x l IH]; [done|]. rewrite !filter_cons.
  destruct (decide (key x ≠ id)) as [Hx|Hx].
  - rewrite filter_cons. destruct (decide (key x = id')); by rewrite IH.
  - apply dec_stable in Hx. destruct (decide (key x = id')); [congruence|done].
Qed.

(** Nothing is removed, and nothing is updated, when no element has the key. *)
Lemma filter_none id l :
  Forall (λ x, key x ≠ id) l → filter (λ x, key x ≠ id) l = l.
Proof.
  induction 1 as [|x l Hx _ IH]; [done|]. rewrite filter_cons.
  destruct (decide (key x ≠ id)); [by rewrite IH|done].
Qed.

Lemma fmap_none id (f : A → A) l :
  Forall (λ x, key x ≠ id) l →
  (λ x, if bool_decide (key x = id) then f x else x) <$> l = l.
Proof.
  induction 1 as [|x l Hx _ IH]; [done|]. rewrite fmap_cons, IH.
  by rewrite bool_decide_eq_false_2.
Qed.

(** The elements with a key and the others share out the list. *)
Lemma length_filter_split id l :
  length (filter (λ x, key x ≠ id) l) + length (filter (λ x, key x = id) l) = length l.
Proof.
  induction l as [|x l IH]; [done|]. rewrite !filter_cons.
  destruct (decide (key x ≠ id)) as [Hx|Hx]; destruct (decide (key x = id)) as [Hy|Hy];
    simpl; [done|lia|lia|done].
Qed.

End by_key.

Section crm_reads.
Context `{Number num}.
Import CRMContext.
Implicit Types (s view : CRM num) (id : string) (user : option User.t).

(** X8. Once [deleteCustomer(id)] is done the customer cannot be found,
    has no leads, and its page redirects to the list; what is found under
    every other id is what was found before. *)
Theorem deleted_customer_is_gone s id :
  let s' := deleteCustomer id s in
  getCustomer s' id = None ∧
  getCustomerLeads s' id = [] ∧
  CustomersPage.getCustomerLeadCount (leads s') id = 0 ∧
  (id ≠ "" → CustomerDetail.redirects s' (Some id) = true) ∧
  (∀ id', id' ≠ id →
     getCustomer s' id' = getCustomer s id' ∧
     getCustomerLeads s' id' = getCustomerLeads s id').
Proof.
  intros s'. subst s'. unfold getCustomer, getCustomerLeads, deleteCustomer. simpl.
  split_and!.
  - apply (find_removed Customer._id).
  - apply (filter_removed Lead.customerId).
  - unfold CustomersPage.getCustomerLeadCount.
    by rewrite (filter_removed Lead.customerId).
  - intros Hid. unfold CustomerDetail.redirects, CustomerDetail.customer.
    rewrite opt_truthy_Some by done. unfold getCustomer. simpl.
    by rewrite (find_removed Customer._id).
  - intros id' Hne. split.
    + by apply (find_other Customer._id).
    + by apply (filter_other Lead.customerId).
Qed.

(** X9. An update or a deletion under an [_id] that no customer, or no
    lead, has changes neither list, and yet ends with the toast of a
    success, as every operation of the context does. *)
Theorem unknown_id_changes_nothing s id
    (customerData : Customer.partial) (leadData : Lead.partial num) :
  (Forall (λ customer, Customer._id customer ≠ id) (customers s) →
     customers (updateCustomer id customerData s) = customers s ∧
     leads (updateCustomer id customerData s) = leads s ∧
     customers (deleteCustomer id s) = customers s ∧
     last (toasts (updateCustomer id customerData s)) =
       Some {| toast_title := "Customer updated";
               toast_description := "Customer information has been updated successfully.";
               toast_variant := None |}) ∧
  (Forall (λ lead, Lead.customerId lead ≠ id) (leads s) →
     leads (deleteCustomer id s) = leads s) ∧
  (Forall (λ lead, Lead._id lead ≠ id) (leads s) →
     leads (updateLead id leadData s) = leads s ∧
     customers (updateLead id leadData s) = customers s ∧
     leads (deleteLead id s) = leads s ∧
     last (toasts (deleteLead id s)) =
       Some {| toast_title := "Lead deleted";
               toast_description := "Lead has been deleted successfully.";
               toast_variant := None |}).
Proof.
  split_and!.
  - intros Hnone. simpl. split_and!; try done.
    + by apply (fmap_none Customer._id).
    + by apply (filter_none Customer._id).
    + by rewrite last_snoc.
  - intros Hnone. simpl. by apply (filter_none Lead.customerId).
  - intros Hnone. simpl. split_and!; try done.
    + by apply (fmap_none Lead._id).
    + by apply (filter_none Lead._id).
    + by rewrite last_snoc.
Qed.

End crm_reads.

Lemma unknown_id_changes_nothing_witness :
  CRMContext.customers
    (CRMContext.updateCustomer (num := float) "99"
       (Customer.mk_partial None (Some "Nobody") None None None None None)
       (CRMContext.loaded (Some (User.mk "1" "Ada" "ada@crm.test" User.Admin "t"))))
  = CRMContext.mockCustomers.
Proof.
  destruct (unknown_id_changes_nothing
              (CRMContext.loaded (num := float)
                 (Some (User.mk "1" "Ada" "ada@crm.test" User.Admin "t")))
              "99" (Customer.mk_partial None (Some "Nobody") None None None None None)
              (Lead.mk_partial None None None None None None None))
    as (Hcustomers & _).
  apply Hcustomers. unfold CRMContext.loaded, CRMContext.mockCustomers. simpl.
  repeat (constructor; [done|]). constructor.
Defined.


(** ** The CRM context: identifiers of leads *)

Section lead_ids.
Context `{Number num}.
Import CRMContext.
Implicit Types (s view : CRM num) (id : string) (user : option User.t).

(** X10. The [_id] of a new lead is [String(leads.length + 1)], so it can
    be taken: when the lead [y] has the [_id] [String(leads.length)], as
    the last lead of the mock data has, and another lead is deleted, the
    next lead that is added gets the [_id] of [y], and [deleteLead] under
    that [_id] then removes both. *)
Theorem lead_ids_collide user s (y : Lead.t num) id (leadData : Lead.data num) now :
  y ∈ leads s →
  Lead._id y = String_of_nat (length (leads s)) →
  Lead._id y ≠ id →
  length (filter (λ lead, Lead._id lead = id) (leads s)) = 1 →
  let s1 := exec user s (DeleteLead id) in
  let s2 := exec user s1 (AddLead leadData now) in
  let s3 := exec user s2 (DeleteLead (Lead._id y)) in
  let added :=
    Lead.mk (Lead._id y) (Lead.d_customerId leadData) (Lead.d_title leadData)
            (Lead.d_description leadData) (Lead.d_status leadData)
            (Lead.d_value leadData) now in
  leads s2 = leads s1 ++ [added] ∧
  y ∈ leads s1 ∧
  (y ∉ leads s3) ∧ (added ∉ leads s3) ∧
  length (leads s3) + 2 ≤ length (leads s2).
Proof.
  intros Hy Hlast Hne Hone s1 s2 s3 added.
  assert (H1 : leads s1 = filter (λ lead, Lead._id lead ≠ id) (leads s)) by done.
  assert (H2 : leads s2 =
               leads s1 ++ [Lead.mk (String_of_nat (length (leads s1) + 1))
                              (Lead.d_customerId leadData) (Lead.d_title leadData)
                              (Lead.d_description leadData) (Lead.d_status leadData)
                              (Lead.d_value leadData) now]) by done.
  assert (H3 : leads s3 = filter (λ lead, Lead._id lead ≠ Lead._id y) (leads s2)) by done.
  clearbody s1 s2 s3.
  assert (Hlen : length (leads s1) + 1 = length (leads s)).
  { pose proof (length_filter_split Lead._id id (leads s)) as Hsplit.
    rewrite Hone in Hsplit. by rewrite H1. }
  rewrite Hlen, <-Hlast in H2. fold added in H2.
  assert (Hy1 : y ∈ leads s1).
  { rewrite H1. by apply list_elem_of_filter. }
  assert (Hs3 : leads s3 = filter (λ lead, Lead._id lead ≠ Lead._id y) (leads s1)).
  { rewrite H3, H2, filter_app, filter_cons.
    destruct (decide (Lead._id added ≠ Lead._id y)) as [Hadded|_]; [done|].
    by rewrite filter_nil, app_nil_r. }
  split_and!; [done|done|..].
  - rewrite Hs3, list_elem_of_filter. tauto.
  - rewrite Hs3, list_elem_of_filter. intros [Hadded _]. done.
  - rewrite Hs3, H2, length_app. simpl.
    pose proof (length_filter_lt (λ lead, Lead._id lead ≠ Lead._id y) (leads s1) y Hy1
                  (λ Hdiff, Hdiff eq_refl)).
    lia.
Qed.

End lead_ids.

Lemma lead_ids_collide_witness :
  let user := Some (User.mk "1" "Ada" "ada@crm.test" User.Admin "2024-03-01T08:00:00Z") in
  let s := CRMContext.loaded (num := float) user in
  let s1 := CRMContext.exec user s (CRMContext.DeleteLead "1") in
  let s2 := CRMContext.exec user s1
              (CRMContext.AddLead (Lead.mk_data "2" "Support plan" None Lead.New 1200%float)
                                  "2024-03-01T09:00:00Z") in
  Lead._id <$> CRMContext.leads s2 = ["2"; "3"; "4"; "4"] ∧
  length (CRMContext.leads (CRMContext.exec user s2 (CRMContext.DeleteLead "4"))) + 2
    ≤ length (CRMContext.leads s2).
Proof.
  intros user s s1 s2. split; [reflexivity|].
  apply (lead_ids_collide user s
           (Lead.mk "4" "3" "Security Audit" (Some "Comprehensive security assessment")
                    Lead.Lost 15000%float "2024-02-06T10:20:00Z")
           "1" (Lead.mk_data "2" "Support plan" None Lead.New 1200%float)
           "2024-03-01T09:00:00Z").
  - unfold s, user, CRMContext.loaded, CRMContext.mockLeads. simpl.
    rewrite !elem_of_cons. tauto.
  - reflexivity.
  - done.
  - reflexivity.
Defined.

(** ** The dashboard, status by status *)

Lemma key_inj (st st' : Lead.Status) : Lead.key st = Lead.key st' → st = st'.
Proof. by destruct st, st'. Qed.

Section by_status.
Context `{Number num}.
Import CRMContext.
Implicit Types (view : CRM num) (leads : list (Lead.t num)) (st : Lead.Status).

Lemma or_zero_0 : or_zero (num_of_Z 0 : num) = num_of_Z 0.
Proof. unfold or_zero. by destruct (num_truthy _). Qed.

Lemma count_step_eq (acc : gmap string nat) (lead : Lead.t num) :
  count_step acc lead !! Lead.key (Lead.status lead) =
  Some (default 0 (acc !! Lead.key (Lead.status lead)) + 1).
Proof. unfold count_step, count_or_zero. by rewrite lookup_insert_eq. Qed.

Lemma value_step_eq (acc : gmap string num) (lead : Lead.t num) :
  value_step acc lead !! Lead.key (Lead.status lead) =
  Some (num_add (or_zero (default (num_of_Z 0) (acc !! Lead.key (Lead.status lead))))
                (Lead.value lead)).
Proof.
  unfold value_step, value_or_zero. rewrite lookup_insert_eq.
  destruct (acc !! _); simpl; [done|]. by rewrite or_zero_0.
Qed.

Lemma step_ne {V : Type} (acc : gmap string V) (lead : Lead.t num) st (v : V) :
  Lead.status lead ≠ st →
  <[Lead.key (Lead.status lead) := v]> acc !! Lead.key st = acc !! Lead.key st.
Proof.
  intros Hst. rewrite lookup_insert_ne; [done|]. intros Hkey. by apply key_inj in Hkey.
Qed.

Lemma count_fold leads (acc : gmap string nat) st :
  fold_left count_step leads acc !! Lead.key st =
  match filter (λ lead, Lead.status lead = st) leads with
  | [] => acc !! Lead.key st
  | mine => Some (default 0 (acc !! Lead.key st) + length mine)
  end.
Proof.
  revert acc. induction leads as [|lead leads IH]; intros acc; [done|].
  cbn [fold_left]. rewrite IH, filter_cons.
  destruct (decide (Lead.status lead = st)) as [<-|Hst].
  - rewrite count_step_eq.
    destruct (filter _ leads); simpl; f_equal; lia.
  - unfold count_step. by rewrite step_ne.
Qed.

Lemma value_fold leads (acc : gmap string num) st :
  fold_left value_step leads acc !! Lead.key st =
  match filter (λ lead, Lead.status lead = st) leads with
  | [] => acc !! Lead.key st
  | mine =>
      Some (fold_left (λ a v, num_add (or_zero a) v) (Lead.value <$> mine)
                      (default (num_of_Z 0) (acc !! Lead.key st)))
  end.
Proof.
  revert acc. induction leads as [|lead leads IH]; intros acc; [done|].
  cbn [fold_left]. rewrite IH, filter_cons.
  destruct (decide (Lead.status lead = st)) as [<-|Hst].
  - rewrite value_step_eq. by destruct (filter _ leads).
  - unfold value_step. by rewrite step_ne.
Qed.

End by_status.

(** X11. [leadsByStatus] and [valueByStatus] have a key for a status
    exactly when a lead has that status. The count is the number of those
    leads, and the value is their values accumulated from left to right as
    [(acc || 0) + value]; when the values of those leads are whole amounts
    (non-negative integers that total less than 2^53), it is the number of
    their integer total. A status without leads has no entry, not an entry
    of [0]. *)
Theorem stats_by_status (view : CRMContext.CRM float) (st : Lead.Status) :
  let stats := CRMContext.getDashboardStats view in
  let mine := filter (λ lead, Lead.status lead = st) (CRMContext.leads view) in
  CRMContext.leadsByStatus stats !! Lead.key st =
    match mine with [] => None | _ => Some (length mine) end ∧
  CRMContext.valueByStatus stats !! Lead.key st =
    match mine with [] => None | _ => Some (accumulated (Lead.value <$> mine)) end ∧
  (∀ amount, whole_amounts amount mine →
     CRMContext.valueByStatus stats !! Lead.key st =
       match mine with [] => None | _ => Some (float_of_Z (total amount mine)) end) ∧
  (∀ key, is_Some (CRMContext.leadsByStatus stats !! key) ∨
          is_Some (CRMContext.valueByStatus stats !! key) →
          key ∈ ["New"; "Contacted"; "Converted"; "Lost"]).
Proof.
  intros stats mine. subst stats mine. unfold CRMContext.getDashboardStats.
  cbn [CRMContext.leadsByStatus CRMContext.valueByStatus].
  assert (Hvalue : fold_left CRMContext.value_step (CRMContext.leads view) ∅ !! Lead.key st =
                   match filter (λ lead, Lead.status lead = st) (CRMContext.leads view) with
                   | [] => None
                   | _ => Some (accumulated
                                  (Lead.value <$> filter (λ lead, Lead.status lead = st)
                                                         (CRMContext.leads view)))
                   end).
  { rewrite value_fold, lookup_empty. by destruct (filter _ (CRMContext.leads view)). }
  split_and!.
  - rewrite count_fold, lookup_empty. by destruct (filter _ (CRMContext.leads view)).
  - done.
  - intros amount [Hall Hlt]. rewrite Hvalue.
    destruct (filter _ (CRMContext.leads view)) as [|lead mine]; [done|].
    f_equal. unfold accumulated. change (num_of_Z 0) with (float_of_Z 0).
    by rewrite (accumulated_whole amount (lead :: mine) 0%Z).
  - intros key Hkey.
    assert (Hdom : ∀ (leads : list (Lead.t float)) (accn : gmap string nat)
                     (accv : gmap string float),
               is_Some (fold_left CRMContext.count_step leads accn !! key) ∨
               is_Some (fold_left CRMContext.value_step leads accv !! key) →
               is_Some (accn !! key) ∨ is_Some (accv !! key) ∨
               key ∈ ["New"; "Contacted"; "Converted"; "Lost"]).
    { clear. intros leads. induction leads as [|lead leads IH]; intros accn accv.
      - simpl. tauto.
      - cbn [fold_left]. intros Hsome. apply IH in Hsome.
        unfold CRMContext.count_step, CRMContext.value_step in Hsome.
        destruct (decide (Lead.key (Lead.status lead) = key)) as [<-|Hother].
        + right. right. apply status_valid.
        + rewrite !lookup_insert_ne in Hsome by done. done. }
    apply Hdom in Hkey. rewrite !lookup_empty in Hkey.
    destruct Hkey as [[? [=]]|[[? [=]]|Hkey]]. done.
Qed.

Lemma stats_by_status_witness :
  let view := CRMContext.loaded (num := float)
                (Some (User.mk "1" "Ada" "ada@crm.test" User.Admin "2024-03-01T08:00:00Z")) in
  CRMContext.valueByStatus (CRMContext.getDashboardStats view) !! "Converted"
    = Some 75000%float.
Proof.
  intros view.
  destruct (stats_by_status view Lead.Converted) as (_ & _ & Hwhole & _).
  apply (Hwhole (λ _, 75000%Z)).
  split; [|by vm_compute]. repeat constructor; by vm_compute.
Defined.

(** ** The CRM context: how the operations compose *)

Section totals.
Context `{Number num}.
Import CRMContext.
Implicit Types (s view : CRM num) (id : string) (leads : list (Lead.t num)).

(** X13. Updates are idempotent: a second [updateCustomer] or [updateLead]
    under the same [_id] and with the same data leaves the list as the
    first one made it. *)
Theorem update_idempotent s id (customerData : Customer.partial)
    (leadData : Lead.partial num) :
  customers (updateCustomer id customerData (updateCustomer id customerData s)) =
    customers (updateCustomer id customerData s) ∧
  leads (updateLead id leadData (updateLead id leadData s)) =
    leads (updateLead id leadData s).
Proof.
  simpl. split; rewrite <-list_fmap_compose; apply list_fmap_ext; intros _ x _; simpl.
  - destruct (bool_decide (Customer._id x = id)) eqn:Hx; [|by rewrite Hx].
    destruct (bool_decide (Customer._id (Customer.spread x customerData) = id)); [|done].
    unfold Customer.spread. simpl.
    by destruct customerData as [[] [] [] [] [] [] []].
  - destruct (bool_decide (Lead._id x = id)) eqn:Hx; [|by rewrite Hx].
    destruct (bool_decide (Lead._id (Lead.spread x leadData) = id)); [|done].
    unfold Lead.spread. simpl.
    by destruct leadData as [[] [] [] [] [] [] []].
Qed.

End totals.

(** X12. [deleteCustomer(id)] takes from the totals of the dashboard what
    the customers page shows for that customer: [totalLeads] goes down by
    [getCustomerLeadCount(id)], [totalCustomers] by the number of customers
    of that [_id], and, when the values of the leads are whole amounts
    (non-negative integers that total less than 2^53), [totalValue] by
    [getCustomerLeadValue(id)]. *)
Theorem deleteCustomer_totals (s : CRMContext.CRM float) (id : string) :
  let before := CRMContext.getDashboardStats s in
  let after := CRMContext.getDashboardStats (CRMContext.deleteCustomer id s) in
  CRMContext.totalLeads after + CustomersPage.getCustomerLeadCount (CRMContext.leads s) id
    = CRMContext.totalLeads before ∧
  CRMContext.totalCustomers after +
    length (filter (λ customer, Customer._id customer = id) (CRMContext.customers s))
    = CRMContext.totalCustomers before ∧
  (∀ amount, whole_amounts amount (CRMContext.leads s) →
     num_add (CRMContext.totalValue after)
             (CustomersPage.getCustomerLeadValue (CRMContext.leads s) id)
     = CRMContext.totalValue before).
Proof.
  intros before after. subst before after.
  unfold CRMContext.getDashboardStats, CRMContext.deleteCustomer,
    CustomersPage.getCustomerLeadCount, CustomersPage.getCustomerLeadValue.
  cbn [CRMContext.totalCustomers CRMContext.totalLeads CRMContext.totalValue
       CRMContext.customers CRMContext.leads CRMContext.setLoading CRMContext.sleep
       CRMContext.setCustomers CRMContext.setLeads CRMContext.toast].
  split_and!.
  - apply (length_filter_split Lead.customerId).
  - apply (length_filter_split Customer._id).
  - intros amount Hwhole.
    pose proof (whole_amounts_filter amount (λ lead, Lead.customerId lead = id) _ Hwhole)
      as [Hmine Hmine_lt].
    pose proof (whole_amounts_filter amount (λ lead, Lead.customerId lead ≠ id) _ Hwhole)
      as [Hrest Hrest_lt].
    pose proof (total_filter amount (λ lead, Lead.customerId lead = id) (CRMContext.leads s))
      as Hsplit.
    destruct Hwhole as [Hall Hlt].
    pose proof (total_nonneg amount _ Hmine). pose proof (total_nonneg amount _ Hrest).
    change (num_of_Z 0) with (float_of_Z 0).
    rewrite !(fold_sum_whole amount _ 0%Z) by (done || lia).
    cbv beta in Hsplit. rewrite num_add_whole by lia. f_equal. lia.
Qed.

Lemma deleteCustomer_totals_witness :
  let s := CRMContext.loaded (num := float)
             (Some (User.mk "1" "Ada" "ada@crm.test" User.Admin "2024-03-01T08:00:00Z")) in
  (CRMContext.totalValue (CRMContext.getDashboardStats (CRMContext.deleteCustomer "1" s))
   + CustomersPage.getCustomerLeadValue (CRMContext.leads s) "1")%float = 165000%float.
Proof.
  intros s.
  destruct (deleteCustomer_totals s "1") as (_ & _ & Hvalue).
  apply (Hvalue (λ v, if PrimFloat.eqb v 50000 then 50000
                      else if PrimFloat.eqb v 25000 then 25000
                      else if PrimFloat.eqb v 75000 then 75000 else 15000)%Z).
  split; [|by vm_compute]. repeat constructor; by vm_compute.
Defined.

(** ** The login page *)

Lemma str_length_0 (s : string) : str_length s = 0 ↔ s = "".
Proof. by destruct s. Qed.

Lemma LoginPage_newErrors_empty (formData : LoginPage.FormData) :
  LoginPage.newErrors formData = ∅ ↔
  str_truthy (LoginPage.email formData) = true ∧
  RegExp.test CustomerModal.emailRegExp (LoginPage.email formData) = true ∧
  str_truthy (LoginPage.password formData) = true ∧
  (str_length (LoginPage.password formData) <? 6) = false.
Proof.
  unfold LoginPage.newErrors.
  destruct (str_truthy (LoginPage.email formData));
    destruct (RegExp.test _ (LoginPage.email formData));
    destruct (str_truthy (LoginPage.password formData));
    destruct (str_length (LoginPage.password formData) <? 6); simpl;
    (split; [intros Hne; try done; by apply insert_non_empty in Hne
            | by intros (? & ? & ? & ?)]).
Qed.

Lemma LoginPage_email_error (formData : LoginPage.FormData) :
  LoginPage.newErrors formData !! "email" =
  if str_truthy (LoginPage.email formData)
  then if RegExp.test CustomerModal.emailRegExp (LoginPage.email formData)
       then None else Some "Email is invalid"
  else Some "Email is required".
Proof.
  unfold LoginPage.newErrors.
  destruct (str_truthy (LoginPage.email formData));
    destruct (RegExp.test _ (LoginPage.email formData));
    destruct (str_truthy (LoginPage.password formData));
    destruct (str_length (LoginPage.password formData) <? 6); simpl;
    rewrite ?(lookup_insert_ne _ "password" "email") by done;
    by rewrite ?lookup_insert_eq.
Qed.

Lemma LoginPage_password_error (formData : LoginPage.FormData) :
  LoginPage.newErrors formData !! "password" =
  if str_truthy (LoginPage.password formData)
  then if str_length (LoginPage.password formData) <? 6
       then Some "Password must be at least 6 characters" else None
  else Some "Password is required".
Proof.
  unfold LoginPage.newErrors.
  destruct (str_truthy (LoginPage.email formData));
    destruct (RegExp.test _ (LoginPage.email formData));
    destruct (str_truthy (LoginPage.password formData));
    destruct (str_length (LoginPage.password formData) <? 6); simpl;
    rewrite ?lookup_insert_eq; try done;
    by rewrite ?(lookup_insert_ne _ "email" "password").
Qed.

Lemma email_shape_nonempty (s : string) : email_shape s → s ≠ "".
Proof.
  intros (pre & a & b & c & post & -> & [Ha _] & _) Hnil.
  apply str_app_eq_nil in Hnil as [_ Hnil]. by apply str_app_eq_nil in Hnil as [? _].
Qed.

(** X14. The login form is valid exactly when the email has the shape of
    an email address and the password has at least six characters, and
    only then does a submit call [login], with the email, the password and
    the box "remember me" of the form. The email is not trimmed: a blank
    one is invalid, an empty one is required. *)
Theorem LoginPage_validateForm_spec (formData : LoginPage.FormData) :
  let errors := LoginPage.newErrors formData in
  (LoginPage.validateForm formData = true ↔
     email_shape (LoginPage.email formData) ∧ 6 ≤ str_length (LoginPage.password formData)) ∧
  (LoginPage.validateForm formData = true →
     LoginPage.handleSubmit formData =
       Some (LoginPage.email formData, LoginPage.password formData,
             Some (LoginPage.rememberMe formData))) ∧
  (LoginPage.validateForm formData = false → LoginPage.handleSubmit formData = None) ∧
  (LoginPage.email formData = "" → errors !! "email" = Some "Email is required") ∧
  (LoginPage.email formData ≠ "" → ¬ email_shape (LoginPage.email formData) →
     errors !! "email" = Some "Email is invalid") ∧
  (LoginPage.password formData = "" → errors !! "password" = Some "Password is required") ∧
  (LoginPage.password formData ≠ "" → str_length (LoginPage.password formData) < 6 →
     errors !! "password" = Some "Password must be at least 6 characters").
Proof.
  intros errors. subst errors. split_and!.
  - unfold LoginPage.validateForm.
    rewrite no_keys_iff, LoginPage_newErrors_empty, test_emailRegExp, Nat.ltb_ge.
    rewrite !str_truthy_true. split.
    + tauto.
    + intros [Hshape Hsix]. split_and!; try done.
      * by apply email_shape_nonempty.
      * intros Hnil. rewrite Hnil in Hsix. simpl in Hsix. lia.
  - intros Hvalid. unfold LoginPage.handleSubmit. by rewrite Hvalid.
  - intros Hinvalid. unfold LoginPage.handleSubmit. by rewrite Hinvalid.
  - intros Hnil. by rewrite LoginPage_email_error, Hnil.
  - intros Hne Hshape. rewrite LoginPage_email_error.
    rewrite (proj2 (str_truthy_true _) Hne).
    destruct (RegExp.test _ _) eqn:Htest; [|done]. by apply test_emailRegExp in Htest.
  - intros Hnil. by rewrite LoginPage_password_error, Hnil.
  - intros Hne Hshort. rewrite LoginPage_password_error.
    rewrite (proj2 (str_truthy_true _) Hne). by rewrite (proj2 (Nat.ltb_lt _ _) Hshort).
Qed.

(** ** The customers page: search *)

Lemma startsWith_spec (s search : string) :
  startsWith s search = true ↔ ∃ rest, s = search +:+ rest.
Proof.
  revert s. induction search as [|c search IH]; intros [|d s]; simpl.
  - split; [|done]. intros _. by exists "".
  - split; [|done]. intros _. by exists (String d s).
  - split; [done|]. by intros [rest Hrest].
  - rewrite andb_true_iff, bool_decide_eq_true, IH. split.
    + intros [-> [rest ->]]. by exists rest.
    + intros [rest Hrest]. rewrite str_app_cons in Hrest. simplify_eq. eauto.
Qed.

Lemma includes_spec (s search : string) :
  includes s search = true ↔ ∃ pre post, s = pre +:+ search +:+ post.
Proof.
  induction s as [|c s IH]; cbn [includes]; rewrite orb_true_iff, startsWith_spec.
  - split.
    + intros [[rest Hrest]|]; [|done]. by exists "", rest.
    + intros (pre & post & Hs). left. symmetry in Hs.
      apply str_app_eq_nil in Hs as [-> Hs]. by exists post.
  - rewrite IH. split.
    + intros [[rest ->]|(pre & post & ->)].
      * by exists "", rest.
      * by exists (String c pre), post.
    + intros ([|c' pre] & post & Hs).
      * left. by exists post.
      * right. rewrite str_app_cons in Hs. simplify_eq. by exists pre, post.
Qed.

Lemma includes_empty (s : string) : includes s "" = true.
Proof. apply includes_spec. by exists "", s. Qed.

Lemma toLowerCase_char_idemp (c : ascii) :
  toLowerCase_char (toLowerCase_char c) = toLowerCase_char c.
Proof. by destruct c as [[] [] [] [] [] [] [] []]. Qed.

Lemma toLowerCase_idemp (s : string) : toLowerCase (toLowerCase s) = toLowerCase s.
Proof.
  induction s as [|c s IH]; [done|]. simpl. by rewrite toLowerCase_char_idemp, IH.
Qed.

Lemma toLowerCase_app (s t : string) :
  toLowerCase (s +:+ t) = toLowerCase s +:+ toLowerCase t.
Proof.
  induction s as [|c s IH]; [done|]. rewrite str_app_cons. simpl.
  by rewrite IH, str_app_cons.
Qed.

Lemma toLowerCase_app_inv (s a b : string) :
  toLowerCase s = a +:+ b →
  ∃ s1 s2, s = s1 +:+ s2 ∧ toLowerCase s1 = a ∧ toLowerCase s2 = b.
Proof.
  revert s. induction a as [|c a IH]; intros s Hs.
  - by exists "", s.
  - destruct s as [|d s]; [done|]. rewrite str_app_cons in Hs. simpl in Hs.
    injection Hs as Hd Hs. apply IH in Hs as (s1 & s2 & -> & <- & <-).
    exists (String d s1), s2. simpl. by rewrite Hd.
Qed.

Lemma N_of_ascii_inj (c d : ascii) : N_of_ascii c = N_of_ascii d → c = d.
Proof. intros Hcd. by rewrite <-(ascii_N_embedding c), <-(ascii_N_embedding d), Hcd. Qed.

Lemma toLowerCase_char_code (c : ascii) :
  (capital c ∧ N_of_ascii (toLowerCase_char c) = (N_of_ascii c + 32)%N) ∨
  (¬ capital c ∧ toLowerCase_char c = c).
Proof.
  unfold capital.
  destruct c as [[] [] [] [] [] [] [] []]; simpl;
    first [left; split; [lia|reflexivity] | right; split; [lia|reflexivity]].
Qed.

(** Two characters have one lower case when they are one letter. *)
Lemma toLowerCase_char_same (c d : ascii) :
  toLowerCase_char c = toLowerCase_char d ↔ same_letter c d.
Proof.
  unfold same_letter.
  destruct (toLowerCase_char_code c) as [[Hc Hc']|[Hc ->]];
    destruct (toLowerCase_char_code d) as [[Hd Hd']|[Hd ->]].
  - split.
    + intros Hcd. left. apply N_of_ascii_inj. rewrite Hcd in Hc'. lia.
    + intros [->|[[_ Hcd]|[_ Hcd]]]; [done|..]; apply N_of_ascii_inj; unfold capital in *; lia.
  - split.
    + intros <-. right. left. by split.
    + intros [->|[[_ Hcd]|[Hcd _]]]; [done| |done]. apply N_of_ascii_inj. lia.
  - split.
    + intros ->. right. right. by split.
    + intros [->|[[Hcd _]|[_ Hcd]]]; [done|done|]. apply N_of_ascii_inj. lia.
  - split.
    + intros ->. by left.
    + by intros [->|[[Hcd _]|[Hcd _]]].
Qed.

Lemma toLowerCase_same (s t : string) :
  toLowerCase s = toLowerCase t ↔ equal_ignoring_case s t.
Proof.
  revert t. induction s as [|c s IH]; intros [|d t]; simpl; try done.
  rewrite <-IH, <-toLowerCase_char_same. split; [by intros [= -> ->]|by intros [-> ->]].
Qed.

Lemma includes_lower (text term : string) :
  includes (toLowerCase text) (toLowerCase term) = true ↔
  contains_ignoring_case text term.
Proof.
  rewrite includes_spec. unfold contains_ignoring_case. split.
  - intros (pre & post & Htext).
    apply toLowerCase_app_inv in Htext as (s1 & s23 & -> & _ & Htext).
    apply toLowerCase_app_inv in Htext as (s2 & s3 & -> & Hfound & _).
    exists s1, s2, s3. split; [done|]. by apply toLowerCase_same.
  - intros (pre & found & post & -> & Hfound%toLowerCase_same).
    exists (toLowerCase pre), (toLowerCase post).
    by rewrite !toLowerCase_app, Hfound.
Qed.

Lemma filteredCustomers_empty_term (customers : list Customer.t) :
  CustomersPage.filteredCustomers customers "" = customers.
Proof.
  unfold CustomersPage.filteredCustomers.
  induction customers as [|customer customers IH]; [done|].
  rewrite filter_cons, IH. rewrite decide_True; [done|].
  unfold CustomersPage.found. change (toLowerCase "") with "".
  by rewrite includes_empty.
Qed.

(** X15. On text of characters up to U+00FF, which is what a [string] of
    this model holds, the search of the customers page keeps, in their
    order, the customers whose name, email or company contains the term,
    whatever the case of the letters in either: some part of the text is
    the term, character by character, up to a capital for its small
    letter or the reverse. The empty term keeps them all, and a customer
    without company is searched by name and email only. (From U+0100 on
    [toLowerCase] is no longer the map of the characters, and containment
    up to case is not what the search computes.) *)
Theorem customer_search (customers : list Customer.t) (searchTerm : string) :
  let found := CustomersPage.filteredCustomers customers searchTerm in
  (∀ customer, customer ∈ found ↔
     customer ∈ customers ∧
     (contains_ignoring_case (Customer.name customer) searchTerm ∨
      contains_ignoring_case (Customer.email customer) searchTerm ∨
      ∃ company, Customer.company customer = Some company ∧
                 contains_ignoring_case company searchTerm)) ∧
  sublist found customers ∧
  CustomersPage.filteredCustomers customers "" = customers ∧
  CustomersPage.filteredCustomers customers (toLowerCase searchTerm) = found.
Proof.
  intros found. subst found. unfold CustomersPage.filteredCustomers. split_and!.
  - intros customer. rewrite list_elem_of_filter. unfold CustomersPage.found.
    rewrite !orb_true_iff, !includes_lower.
    destruct (Customer.company customer) as [company|].
    + rewrite includes_lower. split.
      * intros [[[?|?]|?] ?]; eauto 10.
      * intros [? [?|[?|(? & [= <-] & ?)]]]; eauto.
    + split.
      * intros [[[?|?]|?] ?]; eauto; done.
      * intros [? [?|[?|(? & [=] & ?)]]]; eauto.
  - apply sublist_filter.
  - apply filteredCustomers_empty_term.
  - apply list_filter_iff. intros customer. unfold CustomersPage.found.
    by rewrite toLowerCase_idemp.
Qed.

(** ** The customers page: pages *)

Lemma slice_nonneg {A : Type} (a b : nat) (l : list A) :
  a ≤ b → slice (Z.of_nat a) (Z.of_nat b) l = take (b - a) (drop a l).
Proof.
  intros Hab. unfold slice, slice_index.
  rewrite !(proj2 (Z.ltb_ge _ _)) by lia. rewrite !Nat2Z.id.
  destruct (decide (length l ≤ a)) as [Hlen|Hlen].
  - rewrite (Nat.min_r a), (Nat.min_r b) by lia.
    rewrite Nat.sub_diag, take_0, (drop_ge l a) by done. by rewrite take_nil.
  - rewrite (Nat.min_l a) by lia.
    destruct (decide (b ≤ length l)) as [Hb|Hb].
    + by rewrite Nat.min_l.
    + rewrite Nat.min_r by lia.
      rewrite !take_ge; [done|rewrite length_drop; lia|rewrite length_drop; lia].
Qed.

Lemma page_eq (l : list Customer.t) (p : Z) :
  (1 ≤ p)%Z →
  CustomersPage.paginatedCustomers l p = take 10 (drop (10 * Z.to_nat (p - 1)) l).
Proof.
  intros Hp. unfold CustomersPage.paginatedCustomers, CustomersPage.itemsPerPage.
  replace ((p - 1) * Z.of_nat 10)%Z with (Z.of_nat (10 * Z.to_nat (p - 1))) by lia.
  replace (p * Z.of_nat 10)%Z with (Z.of_nat (10 * Z.to_nat (p - 1) + 10)) by lia.
  rewrite slice_nonneg by lia. f_equal. lia.
Qed.

Lemma totalPages_le (l : list Customer.t) (n : nat) :
  n < CustomersPage.totalPages l ↔ 10 * n < length l.
Proof.
  unfold CustomersPage.totalPages, CustomersPage.itemsPerPage.
  change (10 - 1) with 9.
  pose proof (Nat.div_mod_eq (length l + 9) 10) as Hdiv.
  pose proof (Nat.mod_upper_bound (length l + 9) 10 ltac:(lia)) as Hmod.
  lia.
Qed.

(** X16. The pages share out the filtered customers ten by ten, in their
    order: page [p] holds at most ten of them, its place [i] holds the
    customer at the place [10 (p - 1) + i] of the list, and it holds a
    customer exactly when [p] is at most [totalPages]. The buttons Previous
    and Next keep the page between [1] and [totalPages]. *)
Theorem pages_share_out (filteredCustomers : list Customer.t) (currentPage : Z) :
  (1 ≤ currentPage)%Z →
  let page := CustomersPage.paginatedCustomers filteredCustomers currentPage in
  let totalPages := CustomersPage.totalPages filteredCustomers in
  length page ≤ 10 ∧
  (∀ i customer,
     page !! i = Some customer ↔
     i < 10 ∧ filteredCustomers !! (10 * Z.to_nat (currentPage - 1) + i) = Some customer) ∧
  (page ≠ [] ↔ (currentPage ≤ Z.of_nat totalPages)%Z) ∧
  ((currentPage ≤ Z.of_nat totalPages)%Z →
     (1 ≤ CustomersPage.previousPage currentPage ≤ Z.of_nat totalPages)%Z ∧
     (1 ≤ CustomersPage.nextPage totalPages currentPage ≤ Z.of_nat totalPages)%Z).
Proof.
  intros Hp page totalPages. subst page totalPages. rewrite page_eq by done.
  split_and!.
  - rewrite length_take. lia.
  - intros i customer. rewrite lookup_take, lookup_drop.
    destruct (decide (i < 10)); [tauto|]. split; [done|]. by intros [? _].
  - pose proof (totalPages_le filteredCustomers (Z.to_nat (currentPage - 1))) as Hpages.
    split.
    + intros Hne.
      assert (Hlt : 10 * Z.to_nat (currentPage - 1) < length filteredCustomers).
      { destruct (decide (10 * Z.to_nat (currentPage - 1) < length filteredCustomers));
          [done|]. rewrite drop_ge in Hne by lia. by rewrite take_nil in Hne. }
      apply Hpages in Hlt. lia.
    + intros Hle Hnil. apply (f_equal length) in Hnil.
      rewrite length_take, length_drop in Hnil.
      assert (Hlt : Z.to_nat (currentPage - 1) < CustomersPage.totalPages filteredCustomers)
        by lia.
      apply Hpages in Hlt. cbn [length] in Hnil. lia.
  - unfold CustomersPage.previousPage, CustomersPage.nextPage. lia.
Qed.

Lemma pages_share_out_witness :
  CustomersPage.paginatedCustomers CRMContext.mockCustomers 1 = CRMContext.mockCustomers ∧
  length (CustomersPage.paginatedCustomers CRMContext.mockCustomers 1) ≤ 10.
Proof.
  split; [reflexivity|].
  by apply (pages_share_out CRMContext.mockCustomers 1).
Defined.

Section stale_page.
Context `{Number num}.
Import CRMContext.

(** X17. A deletion does not move the page. When the last page, [p > 1],
    shows a single customer and that customer is deleted, the list has one
    page less, the page [p] that stays on the screen is empty although
    [10 (p - 1)] customers are left, and with [p = 2] the buttons to leave
    it are gone, since they are shown for more than one page only. *)
Theorem deletion_leaves_empty_page (s : CRM num) (id : string) (p : nat) :
  2 ≤ p →
  length (customers s) = 10 * (p - 1) + 1 →
  length (filter (λ customer, Customer._id customer = id) (customers s)) = 1 →
  let shown s := CustomersPage.filteredCustomers (customers s) "" in
  let s' := deleteCustomer id s in
  CustomersPage.totalPages (shown s) = p ∧
  length (CustomersPage.paginatedCustomers (shown s) (Z.of_nat p)) = 1 ∧
  length (shown s') = 10 * (p - 1) ∧
  CustomersPage.totalPages (shown s') = p - 1 ∧
  CustomersPage.paginatedCustomers (shown s') (Z.of_nat p) = [].
Proof.
  intros Hp Hlen Hone shown s'. subst shown. cbv beta.
  rewrite !filteredCustomers_empty_term.
  assert (Hlen' : length (customers s') = 10 * (p - 1)).
  { pose proof (length_filter_split Customer._id id (customers s)) as Hsplit.
    unfold s'. simpl. lia. }
  clearbody s'.
  assert (Hpages : ∀ l : list Customer.t,
            CustomersPage.totalPages l = (length l + 9) / 10) by done.
  split_and!.
  - rewrite Hpages, Hlen. replace (10 * (p - 1) + 1 + 9) with (p * 10) by lia.
    by rewrite Nat.div_mul.
  - rewrite page_eq by lia. rewrite length_take, length_drop. lia.
  - done.
  - rewrite Hpages, Hlen'.
    replace (10 * (p - 1) + 9) with ((p - 1) * 10 + 9) by lia.
    rewrite Nat.div_add_l by done. simpl. lia.
  - rewrite page_eq by lia. rewrite drop_ge by lia. by rewrite take_nil.
Qed.

End stale_page.

Lemma deletion_leaves_empty_page_witness :
  let user := Some (User.mk "1" "Ada" "ada@crm.test" User.Admin "2024-03-01T08:00:00Z") in
  let s := CRMContext.run (num := float) user
             (replicate 8 (CRMContext.AddCustomer
                             (Customer.mk_data "Initech" "sales@initech.com" None None)
                             "2024-03-01T09:00:00Z"))
             (CRMContext.loaded user) in
  let s' := CRMContext.deleteCustomer "11" s in
  length (CRMContext.customers s') = 10 ∧
  CustomersPage.paginatedCustomers
    (CustomersPage.filteredCustomers (CRMContext.customers s') "") 2 = [].
Proof.
  intros user s s'.
  destruct (deletion_leaves_empty_page s "11" 2) as (_ & _ & Hleft & _ & Hpage);
    [lia | reflexivity | reflexivity |].
  split; [|exact Hpage].
  by rewrite filteredCustomers_empty_term in Hleft.
Defined.

(** ** The page of a customer *)

Section customer_page.
Context `{Number num}.
Implicit Types (allLeads : list (Lead.t num)) (st : Lead.Status).

Lemma filteredLeads_status allLeads st :
  CustomerDetail.filteredLeads allLeads (Lead.key st) =
  filter (λ lead, Lead.status lead = st) allLeads.
Proof.
  unfold CustomerDetail.filteredLeads.
  rewrite bool_decide_eq_false_2 by by destruct st.
  apply list_filter_iff. intros lead. split; [apply key_inj|by intros ->].
Qed.

(** X18. The filter by status of a customer's page shares out the leads:
    ['all'] shows them all, a status shows, in their order, the leads of
    that status, and the four statuses together show every lead once. The
    converted leads that the page counts are those of the filter
    ['Converted'], at most all of them. *)
Theorem status_filter_shares_out allLeads :
  CustomerDetail.filteredLeads allLeads "all" = allLeads ∧
  (∀ st lead, lead ∈ CustomerDetail.filteredLeads allLeads (Lead.key st) ↔
                lead ∈ allLeads ∧ Lead.status lead = st) ∧
  (∀ st, sublist (CustomerDetail.filteredLeads allLeads (Lead.key st)) allLeads) ∧
  mjoin ((λ st, CustomerDetail.filteredLeads allLeads (Lead.key st))
           <$> LeadModal.leadStatuses) ≡ₚ allLeads ∧
  CustomerDetail.convertedLeads allLeads =
    length (CustomerDetail.filteredLeads allLeads "Converted") ∧
  CustomerDetail.convertedLeads allLeads ≤ CustomerDetail.totalLeads allLeads.
Proof.
  split_and!.
  - done.
  - intros st lead. rewrite filteredLeads_status, list_elem_of_filter. tauto.
  - intros st. rewrite filteredLeads_status. apply sublist_filter.
  - unfold LeadModal.leadStatuses. rewrite !fmap_cons, fmap_nil.
    rewrite !filteredLeads_status. simpl. rewrite app_nil_r.
    induction allLeads as [|lead allLeads IH]; [done|].
    rewrite !filter_cons.
    destruct (Lead.status lead) eqn:Hst;
      repeat (destruct (decide _) as [?|?]; try done); clear Hst.
    + simpl. by rewrite IH.
    + rewrite <-app_comm_cons, <-Permutation_middle. by rewrite IH.
    + rewrite app_assoc, <-app_comm_cons, <-Permutation_middle, <-app_assoc.
      by rewrite IH.
    + rewrite !app_assoc, <-Permutation_middle, <-!app_assoc. by rewrite IH.
  - done.
  - unfold CustomerDetail.convertedLeads, CustomerDetail.totalLeads.
    apply length_filter.
Qed.

End customer_page.

(** ** The forms at work *)

Section forms.
Context `{Number num}.
Import CRMContext.
Implicit Types (s : CRM num) (id : string) (user : option User.t).

Lemma editedCustomer_Some (customers : list Customer.t) id (c : Customer.t) :
  CustomerModal.editedCustomer customers (Some id) = Some c →
  id ≠ "" ∧ c ∈ customers ∧ Customer._id c = id.
Proof.
  unfold CustomerModal.editedCustomer. simpl.
  destruct (str_truthy id) eqn:Hid; [|done]. intros Hfind.
  apply str_truthy_true in Hid. apply find_some in Hfind as [Hin Heq].
  apply bool_decide_eq_true in Heq. by rewrite list_elem_of_In.
Qed.

Lemma editedLead_Some (leads : list (Lead.t num)) id (l : Lead.t num) :
  LeadModal.editedLead leads (Some id) = Some l →
  id ≠ "" ∧ l ∈ leads ∧ Lead._id l = id.
Proof.
  unfold LeadModal.editedLead.
  destruct (str_truthy id) eqn:Hid; [|done]. intros Hfind.
  apply str_truthy_true in Hid. apply find_some in Hfind as [Hin Heq].
  apply bool_decide_eq_true in Heq. by rewrite list_elem_of_In.
Qed.

Lemma submitCustomer_edit user now id (formData : CustomerModal.FormData) s :
  id ≠ "" → CustomerModal.validateForm formData = true →
  Forms.submitCustomer user now (Some id) formData s =
  updateCustomer id (CustomerModal.as_partial formData) s.
Proof.
  intros Hid Hvalid. unfold Forms.submitCustomer, CustomerModal.handleSubmit.
  rewrite Hvalid. simpl. by rewrite (proj2 (str_truthy_true _) Hid).
Qed.

Lemma submitLead_edit user now customerId id (formData : LeadModal.FormData num) s :
  id ≠ "" → LeadModal.validateForm formData = true →
  Forms.submitLead user now customerId (Some id) formData s =
  updateLead id (LeadModal.as_partial formData) s.
Proof.
  intros Hid Hvalid. unfold Forms.submitLead, LeadModal.handleSubmit.
  rewrite Hvalid. simpl. by rewrite (proj2 (str_truthy_true _) Hid).
Qed.

(** X19. Saving the customer form as it was opened writes the name, the
    email, the phone and the company of the customer that was found into
    every customer of that [_id], a missing phone or company as the empty
    string, and leaves the leads alone. It changes nothing when the
    customer has a phone and a company and no other customer has its
    [_id]. *)
Theorem edit_customer_unchanged user now s id (c : Customer.t) :
  CustomerModal.editedCustomer (customers s) (Some id) = Some c →
  CustomerModal.validateForm (CustomerModal.load (Some c)) = true →
  let s' := Forms.submitCustomer user now (Some id) (CustomerModal.load (Some c)) s in
  customers s' =
    (λ x, if bool_decide (Customer._id x = id)
          then Customer.mk (Customer._id x) (Customer.name c) (Customer.email c)
                           (Some (default "" (Customer.phone c)))
                           (Some (default "" (Customer.company c)))
                           (Customer.ownerId x) (Customer.createdAt x)
          else x) <$> customers s ∧
  leads s' = leads s ∧
  (is_Some (Customer.phone c) → is_Some (Customer.company c) →
   (∀ x, x ∈ customers s → Customer._id x = id → x = c) →
   customers s' = customers s).
Proof.
  intros (Hid & Hin & Hc)%editedCustomer_Some Hvalid s'. subst s'.
  rewrite submitCustomer_edit by done.
  assert (Hmap : customers (updateCustomer id
                   (CustomerModal.as_partial (CustomerModal.load (Some c))) s) =
                 (λ x, if bool_decide (Customer._id x = id)
                       then Customer.mk (Customer._id x) (Customer.name c) (Customer.email c)
                                        (Some (default "" (Customer.phone c)))
                                        (Some (default "" (Customer.company c)))
                                        (Customer.ownerId x) (Customer.createdAt x)
                       else x) <$> customers s) by done.
  split_and!; [done|done|].
  intros [phone Hphone] [company Hcompany] Honly. rewrite Hmap.
  rewrite <-(list_fmap_id (customers s)) at 2.
  apply list_fmap_ext. intros _ x Hx%list_elem_of_lookup_2. simpl.
  destruct (bool_decide (Customer._id x = id)) eqn:Hxid; [|done].
  apply bool_decide_eq_true in Hxid. rewrite (Honly x Hx Hxid).
  destruct c; simpl in *. by subst.
Qed.

(** X20. Saving the lead form as it was opened writes the title, the
    description, the status and the value of the lead that was found into
    every lead of that [_id], a missing description as the empty string;
    the [customerId] of a lead is never changed by the form. It changes
    nothing when the lead has a description and no other lead has its
    [_id]. *)
Theorem edit_lead_unchanged user now s customerId id (l : Lead.t num) :
  LeadModal.editedLead (leads s) (Some id) = Some l →
  LeadModal.validateForm (LeadModal.load (Some l)) = true →
  let s' := Forms.submitLead user now customerId (Some id) (LeadModal.load (Some l)) s in
  leads s' =
    (λ x, if bool_decide (Lead._id x = id)
          then Lead.mk (Lead._id x) (Lead.customerId x) (Lead.title l)
                       (Some (default "" (Lead.description l)))
                       (Lead.status l) (Lead.value l) (Lead.createdAt x)
          else x) <$> leads s ∧
  customers s' = customers s ∧
  Lead.customerId <$> leads s' = Lead.customerId <$> leads s ∧
  (is_Some (Lead.description l) →
   (∀ x, x ∈ leads s → Lead._id x = id → x = l) →
   leads s' = leads s).
Proof.
  intros (Hid & Hin & Hl)%editedLead_Some Hvalid s'. subst s'.
  rewrite submitLead_edit by done.
  assert (Hmap : leads (updateLead id (LeadModal.as_partial (LeadModal.load (Some l))) s) =
                 (λ x, if bool_decide (Lead._id x = id)
                       then Lead.mk (Lead._id x) (Lead.customerId x) (Lead.title l)
                                    (Some (default "" (Lead.description l)))
                                    (Lead.status l) (Lead.value l) (Lead.createdAt x)
                       else x) <$> leads s) by done.
  split_and!; [done|done|..].
  - rewrite Hmap, <-list_fmap_compose. apply list_fmap_ext. intros _ x _. simpl.
    by destruct (bool_decide _).
  - intros [description Hdescription] Honly. rewrite Hmap.
    rewrite <-(list_fmap_id (leads s)) at 2.
    apply list_fmap_ext. intros _ x Hx%list_elem_of_lookup_2. simpl.
    destruct (bool_decide (Lead._id x = id)) eqn:Hxid; [|done].
    apply bool_decide_eq_true in Hxid. rewrite (Honly x Hx Hxid).
    destruct l; simpl in *. by subst.
Qed.

(** X21. A valid customer form that is not editing adds a customer with
    the fields of the form, an empty phone or company as the empty string
    and not as a missing one, owned by the user. Without a user nothing is
    added, and the dialog closes all the same. *)
Theorem add_customer_through_form user now s customerId
    (formData : CustomerModal.FormData) :
  CustomerModal.isEditing customerId = false →
  CustomerModal.validateForm formData = true →
  let s' := Forms.submitCustomer user now customerId formData s in
  CustomerModal.closed (CustomerModal.handleSubmit customerId formData) = true ∧
  leads s' = leads s ∧
  match user with
  | Some u =>
      customers s' =
        customers s ++
          [Customer.mk (String_of_nat (length (customers s) + 1))
                       (CustomerModal.name formData) (CustomerModal.email formData)
                       (Some (CustomerModal.phone formData))
                       (Some (CustomerModal.company formData))
                       (User._id u) now]
  | None => s' = s
  end.
Proof.
  intros Hadd Hvalid s'. subst s'.
  unfold Forms.submitCustomer, CustomerModal.handleSubmit. rewrite Hvalid. simpl.
  destruct customerId as [id|]; simpl in *; rewrite ?Hadd; simpl;
    by destruct user.
Qed.

(** X22. The forms keep referential integrity. A submit of the customer
    form keeps it, and so does a submit of the lead form on the page of a
    customer, which is shown only for a customer of the list and hands its
    [_id] to the form. *)
Theorem forms_keep_integrity user now s (route customerId leadId : option string)
    (c : Customer.t) (customerForm : CustomerModal.FormData)
    (leadForm : LeadModal.FormData num) :
  referential_integrity s →
  referential_integrity (Forms.submitCustomer user now customerId customerForm s) ∧
  (CustomerDetail.customer s route = Some c →
   referential_integrity (Forms.submitLead user now (Customer._id c) leadId leadForm s)).
Proof.
  intros Hs. split.
  - unfold Forms.submitCustomer, CustomerModal.handleSubmit.
    destruct (negb (CustomerModal.validateForm customerForm)); [done|].
    destruct customerId as [id|]; simpl; [destruct (str_truthy id); simpl|].
    + by apply (integrity_exec user s
                  (UpdateCustomer id (CustomerModal.as_partial customerForm))).
    + by apply (integrity_exec user s
                  (AddCustomer (CustomerModal.as_data customerForm) now)).
    + by apply (integrity_exec user s
                  (AddCustomer (CustomerModal.as_data customerForm) now)).
  - intros Hc. unfold CustomerDetail.customer in Hc.
    destruct (AuthContext.opt_truthy route); [|done].
    apply find_some in Hc as [Hin _]. apply list_elem_of_In in Hin.
    assert (Hexists : Exists (λ customer, Customer._id customer = Customer._id c)
                             (customers s)).
    { apply Exists_exists. by exists c. }
    unfold Forms.submitLead, LeadModal.handleSubmit.
    destruct (negb (LeadModal.validateForm leadForm)); [done|].
    destruct leadId as [id|]; simpl; [destruct (str_truthy id); simpl|].
    + by apply (integrity_exec user s (UpdateLead id (LeadModal.as_partial leadForm))).
    + by apply (integrity_exec user s
                  (AddLead (LeadModal.as_data leadForm (Customer._id c)) now)).
    + by apply (integrity_exec user s
                  (AddLead (LeadModal.as_data leadForm (Customer._id c)) now)).
Qed.

End forms.

Lemma edit_customer_unchanged_witness :
  let user := Some (User.mk "1" "Ada" "ada@crm.test" User.Admin "2024-03-01T08:00:00Z") in
  let s := CRMContext.loaded (num := float) user in
  let acme := Customer.mk "1" "Acme Corp" "contact@acme.com" (Some "+1-555-0123")
                          (Some "Acme Corp") "1" "2024-01-15T10:30:00Z" in
  CRMContext.customers
    (Forms.submitCustomer user "2024-03-01T09:00:00Z" (Some "1")
       (CustomerModal.load (Some acme)) s)
  = CRMContext.customers s.
Proof.
  intros user s acme.
  destruct (edit_customer_unchanged user "2024-03-01T09:00:00Z" s "1" acme)
    as (_ & _ & Hsame); [reflexivity | reflexivity |].
  apply Hsame; [by eexists | by eexists |].
  intros x Hx Hid. unfold s, user, CRMContext.loaded, CRMContext.mockCustomers in Hx.
  simpl in Hx. rewrite !elem_of_cons, elem_of_nil in Hx.
  destruct Hx as [->|[->|[->|[]]]]; done.
Defined.

Lemma edit_lead_unchanged_witness :
  let user := Some (User.mk "1" "Ada" "ada@crm.test" User.Admin "2024-03-01T08:00:00Z") in
  let s := CRMContext.loaded (num := float) user in
  let audit := Lead.mk "4" "3" "Security Audit" (Some "Comprehensive security assessment")
                       Lead.Lost 15000%float "2024-02-06T10:20:00Z" in
  Lead.customerId <$>
    CRMContext.leads
      (Forms.submitLead user "2024-03-01T09:00:00Z" "3" (Some "4")
         (LeadModal.load (Some audit)) s)
  = Lead.customerId <$> CRMContext.leads s.
Proof.
  intros user s audit.
  by destruct (edit_lead_unchanged user "2024-03-01T09:00:00Z" s "3" "4" audit)
    as (_ & _ & Hkept & _); [reflexivity | reflexivity |].
Defined.

Lemma add_customer_through_form_witness :
  let form := {| CustomerModal.name := "Initech"; CustomerModal.email := "sales@initech.com";
                 CustomerModal.phone := ""; CustomerModal.company := "" |} in
  Forms.submitCustomer (num := float) None "2024-03-01T09:00:00Z" None form
    (CRMContext.loaded None) = CRMContext.loaded None ∧
  CustomerModal.closed (CustomerModal.handleSubmit None form) = true.
Proof.
  intros form.
  destruct (add_customer_through_form (num := float) None "2024-03-01T09:00:00Z"
              (CRMContext.loaded None) None form) as (Hclosed & _ & Hsame);
    [reflexivity | reflexivity |].
  by split.
Defined.

Lemma forms_keep_integrity_witness :
  let user := Some (User.mk "1" "Ada" "ada@crm.test" User.Admin "2024-03-01T08:00:00Z") in
  let s := CRMContext.loaded (num := float) user in
  let acme := Customer.mk "1" "Acme Corp" "contact@acme.com" (Some "+1-555-0123")
                          (Some "Acme Corp") "1" "2024-01-15T10:30:00Z" in
  referential_integrity
    (Forms.submitLead user "2024-03-01T09:00:00Z" (Customer._id acme) None
       (LeadModal.mk "Renewal" "" Lead.New 1200%float) s).
Proof.
  intros user s acme.
  destruct (forms_keep_integrity user "2024-03-01T09:00:00Z" s (Some "1") None None acme
              (CustomerModal.load None) (LeadModal.mk "Renewal" "" Lead.New 1200%float))
    as (_ & Hlead).
  - apply integrity_loaded.
  - by apply Hlead.
Defined.
